(** * A worker pool with a shared task queue (os_threadpool.c)

    The pool of [os_threadpool.c] is embedded as an interleaving
    transition system.  Every thread carries a program point; one step
    executes one statement of the C source (the line is given with each
    program point).  The mutex [tp->mutex] is a field holding its owner,
    the wait-set of [tp->condition] is the set of workers standing at
    the program point inside [pthread_cond_wait]. *)

From stdpp Require Import base list.
From Stdlib Require Import ZArith Lia.

Local Open Scope Z_scope.

(** ** Data *)

(** An [os_task_t *]: the pool never looks inside a task, it only
    links it in the queue, calls its action and frees it. *)
Definition task := nat.

Inductive tid :=
| Main
| Worker (i : nat).

Global Instance tid_eq_dec : EqDecision tid.
Proof. solve_decision. Defined.

(** [unsigned int] arithmetic. *)
Definition uint_modulus : Z := 2 ^ 32.
Definition wrap (z : Z) : Z := z mod uint_modulus.

(** Program points of [dequeue_task] (lines 69-84). *)
Inductive dq_pc :=
| DqLock                      (* 71: pthread_mutex_lock *)
| DqInc                       (* 72-74: t = NULL; waiting_threads++ *)
| DqTest                      (* 76: if (!queue_is_empty(tp) && tp->active == 1) *)
| DqPop                       (* 77-78: t = list_entry(head.next); list_del(head.next) *)
| DqDec (t : task)            (* 79: waiting_threads-- *)
| DqUnlock (r : option task). (* 82-83: pthread_mutex_unlock; return t *)

(** Program points of [enqueue_task] (lines 48-59). *)
Inductive enq_pc :=
| EnqStart                    (* 50: start = 1 *)
| EnqLock                     (* 55: pthread_mutex_lock *)
| EnqAdd                      (* 56: list_add_tail *)
| EnqSignal                   (* 57: pthread_cond_signal *)
| EnqUnlock.                  (* 58: pthread_mutex_unlock *)

(** Program points of [thread_loop_function] (lines 87-114). *)
Inductive loop_pc :=
| LWhile                      (* 92: while (tp->active == 1) *)
| LDequeue (p : dq_pc)        (* 93: task = dequeue_task(tp), inside the call *)
| LTask (r : option task)     (* 95: if (task == NULL) *)
| LLock                       (* 96: pthread_mutex_lock *)
| LTest                       (* 98, 101: the two conditions *)
| LStop                       (* 99: tp->active = 0 *)
| LBroadcast                  (* 100: pthread_cond_broadcast *)
| LCondWait                   (* 103: pthread_cond_wait, releasing the mutex *)
| LBlocked                    (* 103: asleep on tp->condition *)
| LWoken                      (* 103: woken, taking the mutex again *)
| LUnlock                     (* 105-106: pthread_mutex_unlock; break *)
| LAction (t : task) (call : option (task * enq_pc))
                              (* 109: task->action(task->argument); [call] is
                                 the enqueue_task call the action is inside *)
| LDestroy (t : task)         (* 110: destroy_task(task) *)
| LReturn (by_break : bool).  (* 113: return NULL, after the break of line 106
                                 or after the loop condition failed *)

(** Program points of [destroy_threadpool] (lines 153-171). *)
Inductive destroy_pc :=
| DsActive                    (* 159-161: tp->active = 0; destroy mutex, condition *)
| DsWaiting                   (* 162: waiting_threads = 0 *)
| DsPurge.                    (* 164-170: the purge loop, then free *)

(** Program points of the client, [main] (lines 242-271). *)
Inductive main_pc :=
| MCreate (i : nat)           (* 144-147: create_threadpool's loop, next index i *)
| MProcess (call : option (task * enq_pc))
                              (* 264: process_node(initial_task), which calls
                                 enqueue_task any number of times *)
| MWait (i : nat)             (* 119-120: wait_for_completion's loop *)
| MDestroy (p : destroy_pc)   (* 266: destroy_threadpool(tp) *)
| MExit.                      (* 268-270 *)

(** The file-scope variables of lines 12-13. *)
Record statics := Statics {
  waiting_threads : Z;        (* static unsigned int waiting_threads *)
  start : Z                   (* static int start *)
}.

(** What has happened so far; written by the steps, never read by them. *)
Record history := History {
  added : list task;          (* tasks linked by list_add_tail, in order *)
  removed : list task;        (* tasks unlinked by dequeue_task, in order *)
  executed : list task;       (* tasks whose action was called, in order *)
  purged : list task          (* tasks unlinked by destroy_threadpool *)
}.

Record state := State {
  glob : statics;
  tp_head : list task;        (* tp->head, the queue from head.next on *)
  tp_mutex : option tid;      (* tp->mutex and its owner *)
  tp_active : Z;              (* tp->active *)
  tp_num_threads : Z;         (* tp->num_threads *)
  threads : list loop_pc;     (* tp->threads[i], with where thread i stands *)
  main_at : main_pc;
  hist : history
}.

Definition set_waiting (w : Z) (s : state) : state :=
  State (Statics w (start (glob s))) (tp_head s) (tp_mutex s) (tp_active s)
        (tp_num_threads s) (threads s) (main_at s) (hist s).
Definition set_start (v : Z) (s : state) : state :=
  State (Statics (waiting_threads (glob s)) v) (tp_head s) (tp_mutex s)
        (tp_active s) (tp_num_threads s) (threads s) (main_at s) (hist s).
Definition set_head (q : list task) (s : state) : state :=
  State (glob s) q (tp_mutex s) (tp_active s) (tp_num_threads s) (threads s)
        (main_at s) (hist s).
Definition set_mutex (m : option tid) (s : state) : state :=
  State (glob s) (tp_head s) m (tp_active s) (tp_num_threads s) (threads s)
        (main_at s) (hist s).
Definition set_active (a : Z) (s : state) : state :=
  State (glob s) (tp_head s) (tp_mutex s) a (tp_num_threads s) (threads s)
        (main_at s) (hist s).
Definition set_threads (ws : list loop_pc) (s : state) : state :=
  State (glob s) (tp_head s) (tp_mutex s) (tp_active s) (tp_num_threads s) ws
        (main_at s) (hist s).
Definition set_main (m : main_pc) (s : state) : state :=
  State (glob s) (tp_head s) (tp_mutex s) (tp_active s) (tp_num_threads s)
        (threads s) m (hist s).
Definition set_hist (h : history) (s : state) : state :=
  State (glob s) (tp_head s) (tp_mutex s) (tp_active s) (tp_num_threads s)
        (threads s) (main_at s) h.

Definition log_added (t : task) (s : state) : state :=
  set_hist (History (added (hist s) ++ [t]) (removed (hist s))
                    (executed (hist s)) (purged (hist s))) s.
Definition log_removed (t : task) (s : state) : state :=
  set_hist (History (added (hist s)) (removed (hist s) ++ [t])
                    (executed (hist s)) (purged (hist s))) s.
Definition log_executed (t : task) (s : state) : state :=
  set_hist (History (added (hist s)) (removed (hist s))
                    (executed (hist s) ++ [t]) (purged (hist s))) s.
Definition log_purged (t : task) (s : state) : state :=
  set_hist (History (added (hist s)) (removed (hist s))
                    (executed (hist s)) (purged (hist s) ++ [t])) s.

(** ** The synchronisation primitives *)

Definition pthread_mutex_lock (me : tid) (s : state) : option state :=
  match tp_mutex s with
  | None => Some (set_mutex (Some me) s)
  | Some _ => None
  end.

Definition pthread_mutex_unlock (s : state) : state := set_mutex None s.

Definition is_blocked (pc : loop_pc) : bool :=
  match pc with LBlocked => true | _ => false end.

Definition wake (pc : loop_pc) : loop_pc :=
  match pc with LBlocked => LWoken | _ => pc end.

(** [pthread_cond_signal] unblocks one of the threads blocked on the
    condition variable when there is one; [pick] names it. *)
Definition pthread_cond_signal (pick : option nat) (s : state) : option state :=
  match pick with
  | Some k =>
      match threads s !! k with
      | Some LBlocked => Some (set_threads (<[k := LWoken]> (threads s)) s)
      | _ => None
      end
  | None => if existsb is_blocked (threads s) then None else Some s
  end.

Definition pthread_cond_broadcast (s : state) : state :=
  set_threads (wake <$> threads s) s.

(** ** The functions of the source, statement by statement *)

(** What a step may choose: nothing, the task a client submits next, or
    the thread a signal wakes. *)
Inductive choice :=
| Tau
| Submit (t : task)
| Wake (pick : option nat).

Definition label : Type := tid * choice.

(** Lines 42-45. *)
Definition queue_is_empty (s : state) : bool :=
  match tp_head s with [] => true | _ :: _ => false end.

(** Lines 48-59; the result is the next program point, [None] once the
    call has returned. *)
Definition enqueue_task (me : tid) (t : task) (p : enq_pc) (c : choice)
    (s : state) : option (state * option enq_pc) :=
  match p, c with
  | EnqStart, Tau => Some (set_start 1 s, Some EnqLock)
  | EnqLock, Tau =>
      s' ← pthread_mutex_lock me s; Some (s', Some EnqAdd)
  | EnqAdd, Tau =>
      Some (log_added t (set_head (tp_head s ++ [t]) s), Some EnqSignal)
  | EnqSignal, Wake pick =>
      s' ← pthread_cond_signal pick s; Some (s', Some EnqUnlock)
  | EnqUnlock, Tau => Some (pthread_mutex_unlock s, None)
  | _, _ => None
  end.

(** Lines 69-84; the result is the next program point or the value
    returned. *)
Definition dequeue_task (me : tid) (p : dq_pc) (s : state)
    : option (state * (dq_pc + option task)) :=
  match p with
  | DqLock => s' ← pthread_mutex_lock me s; Some (s', inl DqInc)
  | DqInc =>
      Some (set_waiting (wrap (waiting_threads (glob s) + 1)) s, inl DqTest)
  | DqTest =>
      if negb (queue_is_empty s) && (tp_active s =? 1)
      then Some (s, inl DqPop)
      else Some (s, inl (DqUnlock None))
  | DqPop =>
      match tp_head s with
      | t :: q => Some (log_removed t (set_head q s), inl (DqDec t))
      | [] => None
      end
  | DqDec t =>
      Some (set_waiting (wrap (waiting_threads (glob s) - 1)) s,
            inl (DqUnlock (Some t)))
  | DqUnlock r => Some (pthread_mutex_unlock s, inr r)
  end.

(** A client (the action of a task, or [process_node] called by [main])
    outside a call of [enqueue_task] either submits a task or returns;
    inside a call it runs [enqueue_task]. *)
Definition client (me : tid) (call : option (task * enq_pc)) (c : choice)
    (s : state) : option (state * option (option (task * enq_pc))) :=
  match call with
  | None =>
      match c with
      | Submit t => Some (s, Some (Some (t, EnqStart)))
      | Tau => Some (s, None)
      | Wake _ => None
      end
  | Some (t, p) =>
      '(s', p') ← enqueue_task me t p c s;
      Some (s', Some (match p' with Some p' => Some (t, p') | None => None end))
  end.

(** Lines 87-114, run by worker [i].  At [LBlocked] the worker is
    inside the [pthread_cond_wait] of line 103 and has no statement to
    execute: it goes on at [LWoken] when a signal or the broadcast
    wakes it.  A return of [pthread_cond_wait] that no signal causes is
    not represented. *)
Definition thread_loop_function (i : nat) (pc : loop_pc) (c : choice)
    (s : state) : option (state * loop_pc) :=
  match pc with
  | LAction t call =>
      '(s', k) ← client (Worker i) call c s;
      Some (s', match k with Some call' => LAction t call' | None => LDestroy t end)
  | _ =>
    match c with
    | Tau =>
      match pc with
      | LWhile =>
          if tp_active s =? 1 then Some (s, LDequeue DqLock)
          else Some (s, LReturn false)
      | LDequeue p =>
          '(s', k) ← dequeue_task (Worker i) p s;
          Some (s', match k with inl p' => LDequeue p' | inr r => LTask r end)
      | LTask (Some t) => Some (log_executed t s, LAction t None)
      | LTask None => Some (s, LLock)
      | LLock => s' ← pthread_mutex_lock (Worker i) s; Some (s', LTest)
      | LTest =>
          if waiting_threads (glob s) =? tp_num_threads s then Some (s, LStop)
          else if queue_is_empty s && (start (glob s) =? 1)
               then Some (s, LCondWait)
               else Some (s, LUnlock)
      | LStop => Some (set_active 0 s, LBroadcast)
      | LBroadcast => Some (pthread_cond_broadcast s, LUnlock)
      | LCondWait => Some (pthread_mutex_unlock s, LBlocked)
      | LBlocked => None
      | LWoken => s' ← pthread_mutex_lock (Worker i) s; Some (s', LUnlock)
      | LUnlock => Some (pthread_mutex_unlock s, LReturn true)
      | LDestroy t => Some (s, LWhile)
      | LAction _ _ => None
      | LReturn _ => None
      end
    | _ => None
    end
  end.

Definition has_returned (pc : loop_pc) : bool :=
  match pc with LReturn _ => true | _ => false end.

(** Lines 153-171, run by [main]. *)
Definition destroy_threadpool (p : destroy_pc) (s : state)
    : state * option destroy_pc :=
  match p with
  | DsActive => (set_active 0 s, Some DsWaiting)
  | DsWaiting => (set_waiting 0 s, Some DsPurge)
  | DsPurge =>
      match tp_head s with
      | n :: q => (log_purged n (set_head q s), Some DsPurge)
      | [] => (s, None)
      end
  end.

(** Lines 125-150 up to the loop: the pool as [create_threadpool] leaves
    it before the first [pthread_create].  [g] holds the file-scope
    variables as the process had them before the call. *)
Definition create_threadpool (num_threads : Z) (g : statics) : state :=
  State (Statics 0 (start g)) [] None 1 num_threads [] (MCreate 0)
        (History [] [] [] []).

(** The client thread: the loop of [create_threadpool] (144-147), then
    [process_node], [wait_for_completion] (117-121) and
    [destroy_threadpool], as [main] calls them. *)
Definition main (pc : main_pc) (c : choice) (s : state)
    : option (state * main_pc) :=
  match pc with
  | MProcess call =>
      '(s', k) ← client Main call c s;
      Some (s', match k with Some call' => MProcess call' | None => MWait 0 end)
  | _ =>
    match c with
    | Tau =>
      match pc with
      | MCreate i =>
          if Z.of_nat i <? tp_num_threads s
          then Some (set_threads (threads s ++ [LWhile]) s, MCreate (S i))
          else Some (s, MProcess None)
      | MWait i =>
          if Z.of_nat i <? tp_num_threads s
          then match threads s !! i with
               | Some (LReturn _) => Some (s, MWait (S i))
               | _ => None
               end
          else Some (s, MDestroy DsActive)
      | MDestroy p =>
          let '(s', k) := destroy_threadpool p s in
          Some (s', match k with Some p' => MDestroy p' | None => MExit end)
      | MProcess _ => None
      | MExit => None
      end
    | _ => None
    end
  end.

(** ** The interleaving semantics *)

Definition step (l : label) (s : state) : option state :=
  match l.1 with
  | Main =>
      '(s', pc') ← main (main_at s) l.2 s; Some (set_main pc' s')
  | Worker i =>
      pc ← threads s !! i;
      '(s', pc') ← thread_loop_function i pc l.2 s;
      Some (set_threads (<[i := pc']> (threads s')) s')
  end.

Fixpoint run (ls : list label) (s : state) : option state :=
  match ls with
  | [] => Some s
  | l :: ls' => s' ← step l s; run ls' s'
  end.

(** The states an execution goes through, the first one included. *)
Fixpoint states_of (ls : list label) (s : state) : list state :=
  s :: match ls with
       | [] => []
       | l :: ls' =>
           match step l s with
           | Some s' => states_of ls' s'
           | None => []
           end
       end.

(** [k] consecutive statements of one thread. *)
Definition alone (who : tid) (k : nat) : list label := replicate k (who, Tau).

(** A state of the pool is reachable when some execution leads to it
    from a freshly created pool. *)
Definition reachable (n : Z) (g : statics) (s : state) : Prop :=
  ∃ ls, run ls (create_threadpool n g) = Some s.


(** ** Where the threads stand *)

(** The program points at which the thread owns [tp->mutex]. *)
Definition enq_holds (p : enq_pc) : bool :=
  match p with EnqAdd | EnqSignal | EnqUnlock => true | _ => false end.

Definition call_holds (call : option (task * enq_pc)) : bool :=
  match call with Some (_, p) => enq_holds p | None => false end.

Definition dq_holds (p : dq_pc) : bool :=
  match p with DqLock => false | _ => true end.

Definition loop_holds (pc : loop_pc) : bool :=
  match pc with
  | LDequeue p => dq_holds p
  | LTest | LStop | LBroadcast | LCondWait | LUnlock => true
  | LAction _ call => call_holds call
  | _ => false
  end.

Definition main_holds (pc : main_pc) : bool :=
  match pc with MProcess call => call_holds call | _ => false end.

Definition holds (s : state) (who : tid) : bool :=
  match who with
  | Main => main_holds (main_at s)
  | Worker i =>
      match threads s !! i with Some pc => loop_holds pc | None => false end
  end.

(** The mutex is owned by the thread that stands inside a critical
    section, and by no other. *)
Definition exclusion (s : state) : Prop :=
  ∀ who, holds s who = true ↔ tp_mutex s = Some who.

(** What a worker standing at a program point has added to
    [waiting_threads] and not taken back. *)
Definition dq_counts (p : dq_pc) : Z :=
  match p with
  | DqLock | DqInc => 0
  | DqTest | DqPop | DqDec _ => 1
  | DqUnlock (Some _) => 0
  | DqUnlock None => 1
  end.

Definition counts (pc : loop_pc) : Z :=
  match pc with
  | LWhile => 0
  | LDequeue p => dq_counts p
  | LTask (Some _) => 0
  | LTask None => 1
  | LLock | LTest | LStop | LBroadcast | LCondWait | LBlocked | LWoken
  | LUnlock => 1
  | LAction _ _ | LDestroy _ => 0
  | LReturn by_break => if by_break then 1 else 0
  end.

Fixpoint count_waiting (ws : list loop_pc) : Z :=
  match ws with
  | [] => 0
  | pc :: ws' => counts pc + count_waiting ws'
  end.

(** A worker whose [dequeue_task] has returned NULL. *)
Definition gave_up (pc : loop_pc) : bool :=
  match pc with
  | LDequeue (DqUnlock None) | LTask None
  | LLock | LTest | LStop | LBroadcast | LCondWait | LBlocked | LWoken
  | LUnlock | LReturn true => true
  | _ => false
  end.

(** A worker that is past the test of line 98. *)
Definition past_test (pc : loop_pc) : bool :=
  match pc with
  | LBroadcast | LCondWait | LBlocked | LWoken | LUnlock | LReturn _ => true
  | _ => false
  end.

Definition in_destroy (pc : main_pc) : bool :=
  match pc with MDestroy _ | MExit => true | _ => false end.

(** [main] has joined the first [k] workers. *)
Definition joined (k : nat) (s : state) : Prop :=
  ∀ j pc, (j < k)%nat → threads s !! j = Some pc → has_returned pc = true.

(** The threads array against the program point of [main]. *)
Definition shape (s : state) : Prop :=
  0 ≤ tp_num_threads s < uint_modulus ∧
  match main_at s with
  | MCreate k => length (threads s) = k ∧ Z.of_nat k ≤ tp_num_threads s
  | MProcess _ => Z.of_nat (length (threads s)) = tp_num_threads s
  | MWait k => Z.of_nat (length (threads s)) = tp_num_threads s ∧ joined k s
  | MDestroy _ | MExit =>
      Z.of_nat (length (threads s)) = tp_num_threads s ∧
      joined (length (threads s)) s
  end.

(** [waiting_threads] is the number of workers that have added one to
    it and not taken it back, until [destroy_threadpool] resets it. *)
Definition counted (s : state) : Prop :=
  match main_at s with
  | MDestroy DsPurge | MExit => waiting_threads (glob s) = 0
  | _ => waiting_threads (glob s) = count_waiting (threads s)
  end.

(** [ws'] is [ws] with some blocked workers woken. *)
Definition woken_only (ws ws' : list loop_pc) : Prop :=
  ∀ j, ws' !! j = ws !! j ∨ (ws !! j = Some LBlocked ∧ ws' !! j = Some LWoken).

(** How the statement of thread [me] moves the mutex, by whether the
    thread owns it before and after. *)
Definition mutex_after (me : tid) (before after : bool) (m m' : option tid)
    : Prop :=
  match before, after with
  | false, true => m = None ∧ m' = Some me
  | true, false => m' = None
  | _, _ => m' = m
  end.

(** Every worker has been created and has had NULL from
    [dequeue_task]: none is running or will run a task. *)
Definition quiescent (s : state) : Prop :=
  Z.of_nat (length (threads s)) = tp_num_threads s ∧
  ∀ j pc, threads s !! j = Some pc → gave_up pc = true.

(** The pool is stopped, or a worker is about to stop it. *)
Definition stopping (s : state) : Prop :=
  tp_active s ≠ 1 ∨ ∃ j, threads s !! j = Some LStop.

Definition stop_inv (s : state) : Prop :=
  (tp_active s = 0 ∨ tp_active s = 1) ∧
  (stopping s → quiescent s) ∧
  (∀ j, threads s !! j ≠ Some (LReturn false)).

(** Everything that holds of the reachable states. *)
Definition invariant (s : state) : Prop :=
  shape s ∧ exclusion s ∧ counted s ∧ stop_inv s.


(** Every worker has been created and is past the test of line 98. *)
Definition all_past (s : state) : Prop :=
  Z.of_nat (length (threads s)) = tp_num_threads s ∧
  0 < tp_num_threads s ∧
  ∀ j pc, threads s !! j = Some pc → past_test pc = true.

(** [wait_for_completion] can return: there is at least one worker and
    every worker has returned. *)
Definition all_returned (s : state) : Prop :=
  Z.of_nat (length (threads s)) = tp_num_threads s ∧
  0 < tp_num_threads s ∧
  ∀ j pc, threads s !! j = Some pc → has_returned pc = true.

(** ** Counting the changes of [tp->active] along an execution *)

Definition is_active (s : state) : bool := tp_active s =? 1.

(** The steps at which the flag goes from true to false. *)
Fixpoint deactivations (ss : list state) : nat :=
  match ss with
  | a :: (b :: _) as rest =>
      ((if is_active a && negb (is_active b) then 1 else 0)
       + deactivations rest)%nat
  | _ => 0%nat
  end.

(** The steps at which the flag goes from false to true. *)
Fixpoint reactivations (ss : list state) : nat :=
  match ss with
  | a :: (b :: _) as rest =>
      ((if negb (is_active a) && is_active b then 1 else 0)
       + reactivations rest)%nat
  | _ => 0%nat
  end.

(** A complete execution with one worker: the worker finds the queue
    empty, a task is submitted, the worker stops the pool, [main] joins
    and destroys. *)
Definition late_submission : list label :=
  [(Main, Tau); (Main, Tau)]
  ++ alone (Worker 0) 6
  ++ [(Main, Submit 8%nat); (Main, Tau); (Main, Tau); (Main, Tau);
      (Main, Wake None); (Main, Tau)]
  ++ alone (Worker 0) 5
  ++ alone Main 7.

(** ** The queue and its history *)

(** What one statement does to the queue: nothing, [list_add_tail] of
    a task, [list_del] of the first task by [dequeue_task], or by the
    purge of [destroy_threadpool]. *)
Inductive queue_change (s s' : state) : Prop :=
| QSame :
    tp_head s' = tp_head s → hist s' = hist s ∨
    (∃ t, hist s' = History (added (hist s)) (removed (hist s))
                            (executed (hist s) ++ [t]) (purged (hist s))) →
    queue_change s s'
| QAdd t :
    tp_head s' = tp_head s ++ [t] →
    hist s' = History (added (hist s) ++ [t]) (removed (hist s))
                      (executed (hist s)) (purged (hist s)) →
    queue_change s s'
| QPop t :
    tp_head s = t :: tp_head s' →
    hist s' = History (added (hist s)) (removed (hist s) ++ [t])
                      (executed (hist s)) (purged (hist s)) →
    main_at s' = main_at s →
    (∃ i pc, threads s !! i = Some pc ∧ has_returned pc = false) →
    queue_change s s'
| QPurge t :
    tp_head s = t :: tp_head s' →
    hist s' = History (added (hist s)) (removed (hist s))
                      (executed (hist s)) (purged (hist s) ++ [t]) →
    in_destroy (main_at s) = true →
    queue_change s s'.

(** The tasks ever linked are those unlinked, in the same order,
    followed by the queue. *)
Definition fifo (s : state) : Prop :=
  added (hist s) = removed (hist s) ++ purged (hist s) ++ tp_head s ∧
  (purged (hist s) ≠ [] → in_destroy (main_at s) = true).

(** ** Submissions after the pool has gone idle *)

(** The step [l] executes the [list_add_tail] of line 56. *)
Definition adds_task (l : label) (s : state) : bool :=
  match l.1 with
  | Main =>
      match main_at s with
      | MProcess (Some (_, EnqAdd)) => true
      | _ => false
      end
  | Worker i =>
      match threads s !! i with
      | Some (LAction _ (Some (_, EnqAdd))) => true
      | _ => false
      end
  end.

(** No task is linked while [waiting_threads] equals the number of
    workers. *)
Fixpoint no_late_add (ls : list label) (s : state) : bool :=
  match ls with
  | [] => true
  | l :: ls' =>
      negb (adds_task l s && (waiting_threads (glob s) =? tp_num_threads s))
      && match step l s with
         | Some s' => no_late_add ls' s'
         | None => true
         end
  end.

(** No task is linked while the flag is false. *)
Fixpoint no_add_after_stop (ls : list label) (s : state) : bool :=
  match ls with
  | [] => true
  | l :: ls' =>
      negb (adds_task l s && (tp_active s =? 0))
      && match step l s with
         | Some s' => no_add_after_stop ls' s'
         | None => true
         end
  end.

(** ** Executions used as examples *)

(** A whole call of [enqueue_task] by [who]; [pick] is the thread the
    signal wakes. *)
Definition submit (who : tid) (t : task) (pick : option nat) : list label :=
  [(who, Submit t); (who, Tau); (who, Tau); (who, Tau); (who, Wake pick);
   (who, Tau)].

(** One worker.  Task 7 is submitted, dequeued and run; the next
    [dequeue_task] finds the queue empty and returns NULL; before the
    worker reaches line 96, task 8 is submitted. *)
Definition lost_task_before : list label :=
  [(Main, Tau); (Main, Tau)]
  ++ submit Main 7%nat None
  ++ alone (Worker 0) 8
  ++ alone (Worker 0) 3
  ++ alone (Worker 0) 4
  ++ submit Main 8%nat None.

(** The worker then runs lines 95-106 and returns; [main] joins it and
    destroys the pool. *)
Definition lost_task_after : list label :=
  alone (Worker 0) 6 ++ alone Main 7.

(** Two workers.  Worker 0 runs task 1; worker 1 finds the queue empty
    and blocks on the condition variable; the action of task 1 submits
    task 2 and its signal wakes worker 1. *)
Definition woken_before : list label :=
  [(Main, Tau); (Main, Tau); (Main, Tau)]
  ++ submit Main 1%nat None
  ++ alone (Worker 0) 8
  ++ alone (Worker 1) 9
  ++ submit (Worker 0) 2%nat (Some 1%nat).

(** Worker 1 runs on from inside [pthread_cond_wait]. *)
Definition woken_after : list label := alone (Worker 1) 2.

(** One worker, nothing submitted: the worker finds the queue empty,
    sees that all workers (itself) are waiting and stops the pool. *)
Definition idle_stop : list label :=
  [(Main, Tau); (Main, Tau)] ++ alone (Worker 0) 11.

(** The statement [l] writes the queue, the flag or the counter. *)
Definition writes_pool (s s' : state) : Prop :=
  tp_head s' ≠ tp_head s ∨ tp_active s' ≠ tp_active s ∨
  waiting_threads (glob s') ≠ waiting_threads (glob s).


(** The step [l] executes line 50, the first statement of
    [enqueue_task]. *)
Definition calls_enqueue (l : label) (s : state) : bool :=
  match l.1 with
  | Main =>
      match main_at s with
      | MProcess (Some (_, EnqStart)) => true
      | _ => false
      end
  | Worker j =>
      match threads s !! j with
      | Some (LAction _ (Some (_, EnqStart))) => true
      | _ => false
      end
  end.

(** ** Further properties of the pool *)

(** The number of workers whose [dequeue_task] has returned NULL. *)
Definition count_gave_up (ws : list loop_pc) : Z :=
  Z.of_nat (length (filter (λ pc, gave_up pc = true) ws)).

(** The task a worker has unlinked and not yet run: between line 78
    and the call of line 109. *)
Definition held_task (pc : loop_pc) : list task :=
  match pc with
  | LDequeue (DqDec t) | LDequeue (DqUnlock (Some t)) | LTask (Some t) => [t]
  | _ => []
  end.

Definition held_tasks (ws : list loop_pc) : list task :=
  ws ≫= held_task.

(** A thread is inside [enqueue_task], past line 50. *)
Definition past_start (call : option (task * enq_pc)) : bool :=
  match call with
  | Some (_, EnqStart) | None => false
  | Some _ => true
  end.

Definition loop_past_start (pc : loop_pc) : bool :=
  match pc with LAction _ call => past_start call | _ => false end.

Definition main_past_start (pc : main_pc) : bool :=
  match pc with MProcess call => past_start call | _ => false end.

(** A call of [enqueue_task] has gone past line 50, or a task has been
    linked. *)
Definition submission_begun (s : state) : Prop :=
  added (hist s) ≠ [] ∨ main_past_start (main_at s) = true ∨
  ∃ j pc, threads s !! j = Some pc ∧ loop_past_start pc = true.

(** One worker, one task submitted before the worker goes idle: the
    worker runs task 7, finds the queue empty and stops the pool;
    [main] joins it and destroys the pool. *)
Definition clean_run : list label :=
  [(Main, Tau); (Main, Tau)]
  ++ submit Main 7%nat None
  ++ alone (Worker 0) 8
  ++ alone (Worker 0) 3
  ++ alone (Worker 0) 4
  ++ alone (Worker 0) 6
  ++ alone Main 6.

(** ** Progress *)

(** A worker asleep on the condition variable, or about to be. *)
Definition is_waiting (pc : loop_pc) : bool :=
  match pc with LBlocked | LCondWait => true | _ => false end.

(** A worker that has not yet decided at line 98, or is about to
    broadcast: it still has statements to execute, and those that
    follow a decision to stop include the broadcast. *)
Definition can_rescue (pc : loop_pc) : bool :=
  match pc with
  | LBroadcast => true
  | _ => negb (past_test pc)
  end.

(** A sleeping worker is never left alone: some worker can still
    rescue it, or [create_threadpool] has workers left to start. *)
Definition rescue_inv (s : state) : Prop :=
  (∃ j pc, threads s !! j = Some pc ∧ is_waiting pc = true) →
  (∃ j pc, threads s !! j = Some pc ∧ can_rescue pc = true) ∨
  Z.of_nat (length (threads s)) < tp_num_threads s.

(** ** A bound on the length of executions *)

(** Statements a thread has still to execute before it returns, a task
    in the queue standing for the ten statements that dequeue and run
    it. *)
Definition task_cost : Z := 10.

Definition enq_cost (p : enq_pc) : Z :=
  match p with
  | EnqStart => 15
  | EnqLock => 14
  | EnqAdd => 13
  | EnqSignal => 2
  | EnqUnlock => 1
  end.

Definition call_cost (call : option (task * enq_pc)) : Z :=
  match call with Some (_, p) => enq_cost p | None => 0 end.

Definition loop_cost (pc : loop_pc) : Z :=
  match pc with
  | LReturn _ => 0
  | LUnlock => 1
  | LWoken | LBlocked | LBroadcast => 2
  | LCondWait | LStop => 3
  | LTest => 4
  | LLock => 5
  | LTask None => 6
  | LDequeue (DqUnlock None) | LDequeue DqPop => 7
  | LDequeue DqTest => 8
  | LDequeue DqInc => 9
  | LDequeue DqLock => 10
  | LWhile => 11
  | LDestroy _ => 12
  | LAction _ call => 13 + call_cost call
  | LTask (Some _) => 14
  | LDequeue (DqUnlock (Some _)) => 15
  | LDequeue (DqDec _) => 16
  end.

Fixpoint workers_cost (ws : list loop_pc) : Z :=
  match ws with
  | [] => 0
  | pc :: ws' => loop_cost pc + workers_cost ws'
  end.

Definition main_cost (n : Z) (pc : main_pc) : Z :=
  match pc with
  | MExit => 0
  | MDestroy DsPurge => 1
  | MDestroy DsWaiting => 2
  | MDestroy DsActive => 3
  | MWait k => Z.max 0 (n - Z.of_nat k) + 4
  | MProcess call => Z.max 0 n + 5 + call_cost call
  | MCreate k => 12 * Z.max 0 (n - Z.of_nat k) + Z.max 0 n + 6
  end.

Definition cost (s : state) : Z :=
  main_cost (tp_num_threads s) (main_at s) + workers_cost (threads s)
  + task_cost * Z.of_nat (length (tp_head s)).

Definition is_submit (l : label) : bool :=
  match l.2 with Submit _ => true | _ => false end.

(** The number of calls of [enqueue_task] an execution begins. *)
Definition submissions (ls : list label) : Z :=
  Z.of_nat (length (filter (λ l, is_submit l = true) ls)).

(** ** The client: [process_node] and the sum (lines 186-240)

    [os_graph.h] is not part of the sources; of its declarations the
    client uses [graph->nodes[i]->info], [->num_neighbours],
    [->neighbours[j]], [graph->visited[i]] and the enumerator [DONE].
    A node is modelled by its [info] and the list of its [neighbours]
    ([num_neighbours] is the length of the list), the graph by the two
    arrays, and [DONE] is a parameter.  An index outside an array gives
    no result. *)

Record os_node := Node {
  info : Z;                   (* int info *)
  neighbours : list nat       (* unsigned int *neighbours, num_neighbours *)
}.

Record os_graph := Graph {
  nodes : list os_node;       (* os_node_t **nodes *)
  visited : list Z            (* the visited array *)
}.

(** The file-scope variables [graph] and [sum] of lines 188-189. *)
Record client_state := Client {
  graph : os_graph;
  sum : Z
}.

(** [int] arithmetic, two's complement on 32 bits. *)
Definition wrap_int (z : Z) : Z := (z + 2 ^ 31) mod 2 ^ 32 - 2 ^ 31.

(** Lines 200-205. *)
Definition add_to_sum (value : Z) (c : client_state) : client_state :=
  Client (graph c) (wrap_int (sum c + value)).

Section Client.

Variable DONE : Z.

Definition is_done (v : Z) : bool := v =? DONE.

(** Lines 224-238: the loop over the neighbours; the result lists the
    [node_id] of the tasks given to [enqueue_task], in order. *)
Fixpoint submit_neighbours (vis : list Z) (nbs : list nat)
    : option (list nat) :=
  match nbs with
  | [] => Some []
  | neighbor_id :: rest =>
      v ← vis !! neighbor_id;
      subs ← submit_neighbours vis rest;
      Some (if is_done v then subs else neighbor_id :: subs)
  end.

(** Lines 208-240, one call run from beginning to end. *)
Definition process_node (node_id : nat) (c : client_state)
    : option (client_state * list nat) :=
  v ← visited (graph c) !! node_id;
  if is_done v then Some (c, [])
  else
    nd ← nodes (graph c) !! node_id;
    let g1 := Graph (nodes (graph c))
                    (<[node_id := DONE]> (visited (graph c))) in
    let c1 := add_to_sum (info nd) (Client g1 (sum c)) in
    subs ← submit_neighbours (visited g1) (neighbours nd);
    Some (c1, subs).

(** The actions of the tasks for the nodes [ids], called one after the
    other; the tasks they submit are collected. *)
Fixpoint process_nodes (ids : list nat) (c : client_state)
    : option (client_state * list nat) :=
  match ids with
  | [] => Some (c, [])
  | node_id :: rest =>
      '(c1, subs1) ← process_node node_id c;
      '(c2, subs2) ← process_nodes rest c1;
      Some (c2, subs1 ++ subs2)
  end.

(** The sum of the [info] of the nodes marked [DONE]. *)
Fixpoint done_total (ns : list os_node) (vis : list Z) : Z :=
  match ns, vis with
  | nd :: ns', v :: vis' =>
      (if is_done v then info nd else 0) + done_total ns' vis'
  | _, _ => 0
  end.

End Client.

(** *** The nodes a traversal can reach *)

(** [v] is a neighbour of [u]. *)
Definition edge (g : os_graph) (u v : nat) : Prop :=
  ∃ nd, nodes g !! u = Some nd ∧ v ∈ neighbours nd.

(** [v] can be reached from [u] along the edges. *)
Inductive reach (g : os_graph) (u : nat) : nat → Prop :=
| reach_refl : reach g u u
| reach_step v w : reach g u v → edge g v w → reach g u w.

(** The graph 0 -> 1 -> 2 -> 3 with the values 10, 20, 30, 40, nothing
    visited; [DONE] is taken to be 2. *)
Definition chain_graph : os_graph :=
  Graph [Node 10 [1%nat]; Node 20 [2%nat]; Node 30 [3%nat]; Node 40 []]
        [0; 0; 0; 0].

(** *** Two calls of [process_node] at the same time

    The statements of [process_node].  Lines 213 and 217 read and
    write [graph->visited] with no mutex held; line 220 is the call of
    [add_to_sum], which takes [sum_mutex]; the loop of lines 222-239
    runs under [graph_mutex] and is taken as one step. *)
Inductive pn_pc :=
| PnCheck                     (* 213: if (visited[node_id] == DONE) return *)
| PnMark                      (* 217: visited[node_id] = DONE *)
| PnAdd                       (* 220: add_to_sum(nodes[node_id]->info) *)
| PnLoop                      (* 222-239: the loop over the neighbours *)
| PnReturn.

Definition process_node_stmt (DONE : Z) (node_id : nat) (pc : pn_pc)
    (c : client_state) : option (client_state * pn_pc * list nat) :=
  match pc with
  | PnCheck =>
      v ← visited (graph c) !! node_id;
      Some (c, if is_done DONE v then PnReturn else PnMark, [])
  | PnMark =>
      _ ← visited (graph c) !! node_id;
      Some (Client (Graph (nodes (graph c))
                          (<[node_id := DONE]> (visited (graph c))))
                   (sum c), PnAdd, [])
  | PnAdd =>
      nd ← nodes (graph c) !! node_id;
      Some (add_to_sum (info nd) c, PnLoop, [])
  | PnLoop =>
      nd ← nodes (graph c) !! node_id;
      subs ← submit_neighbours DONE (visited (graph c)) (neighbours nd);
      Some (c, PnReturn, subs)
  | PnReturn => None
  end.

(** Two workers [a] and [b] running the tasks of the nodes [id_a] and
    [id_b]; [sched] tells whose statement comes next ([true] for [a]).
    The result gives the tasks each call has submitted. *)
Fixpoint interleave (DONE : Z) (id_a id_b : nat) (sched : list bool)
    (c : client_state) (a b : pn_pc * list nat)
    : option (client_state * (pn_pc * list nat) * (pn_pc * list nat)) :=
  match sched with
  | [] => Some (c, a, b)
  | true :: sched' =>
      '(c', pc', subs) ← process_node_stmt DONE id_a a.1 c;
      interleave DONE id_a id_b sched' c' (pc', a.2 ++ subs) b
  | false :: sched' =>
      '(c', pc', subs) ← process_node_stmt DONE id_b b.1 c;
      interleave DONE id_a id_b sched' c' a (pc', b.2 ++ subs)
  end.
(** ** Basic facts about single steps *)

Lemma step_worker i c s :
  step (Worker i, c) s =
    pc ← threads s !! i;
    '(s', pc') ← thread_loop_function i pc c s;
    Some (set_threads (<[i := pc']> (threads s')) s').
Proof. reflexivity. Qed.

Lemma step_main c s :
  step (Main, c) s =
    '(s', pc') ← main (main_at s) c s; Some (set_main pc' s').
Proof. reflexivity. Qed.

Lemma run_cons l ls s :
  run (l :: ls) s = s' ← step l s; run ls s'.
Proof. reflexivity. Qed.

Lemma run_app ls1 ls2 s :
  run (ls1 ++ ls2) s = s' ← run ls1 s; run ls2 s'.
Proof.
  revert s. induction ls1 as [|l ls1 IH]; intros s; simpl; [done|].
  destruct (step l s); simpl; auto.
Qed.

Lemma alone_S who k : alone who (S k) = (who, Tau) :: alone who k.
Proof. reflexivity. Qed.

(** One statement of worker [i], standing at [pc]. *)
Lemma worker_does i pc c s s1 pc' :
  threads s !! i = Some pc →
  thread_loop_function i pc c s = Some (s1, pc') →
  step (Worker i, c) s = Some (set_threads (<[i := pc']> (threads s1)) s1).
Proof. intros Hi Hf. rewrite step_worker, Hi. simpl. by rewrite Hf. Qed.

Lemma lookup_insert_here (ws : list loop_pc) i pc pc' :
  ws !! i = Some pc → <[i := pc']> ws !! i = Some pc'.
Proof. intros H. apply list_lookup_insert_eq. by eapply lookup_lt_Some. Qed.

Lemma insert_twice (ws : list loop_pc) i pc pc' :
  <[i := pc']> (<[i := pc]> ws) = <[i := pc']> ws.
Proof. apply list_insert_insert_eq. Qed.

Lemma wrap_small z : 0 ≤ z < uint_modulus → wrap z = z.
Proof. intros H. unfold wrap. by apply Z.mod_small. Qed.

Lemma wrap_inc_dec w : 0 ≤ w < uint_modulus → wrap (wrap (w + 1) - 1) = w.
Proof.
  intros H. unfold wrap, uint_modulus in *.
  destruct (decide (w + 1 = 2 ^ 32)) as [E|E].
  - rewrite E, Z.mod_same by lia. simpl. 
    change ((0 - 1) mod 2 ^ 32) with (2 ^ 32 - 1). lia.
  - rewrite (Z.mod_small (w + 1)) by lia.
    replace (w + 1 - 1) with w by lia. apply Z.mod_small; lia.
Qed.

Lemma step_inv l s s' :
  step l s = Some s' →
  (l.1 = Main ∧ ∃ s1 pc',
     main (main_at s) l.2 s = Some (s1, pc') ∧ s' = set_main pc' s1) ∨
  (∃ i pc s1 pc', l.1 = Worker i ∧ threads s !! i = Some pc ∧
     thread_loop_function i pc l.2 s = Some (s1, pc') ∧
     s' = set_threads (<[i := pc']> (threads s1)) s1).
Proof.
  destruct l as [[|i] c]; unfold step; simpl; intros H.
  - left. split; [done|].
    destruct (main (main_at s) c s) as [[s1 pc']|]; simplify_eq/=. eauto.
  - right. destruct (threads s !! i) as [pc|] eqn:Hi; simplify_eq/=.
    destruct (thread_loop_function i pc c s) as [[s1 pc']|] eqn:Hf;
      simplify_eq/=.
    eauto 10.
Qed.

(** Case analysis on the statement a step executes. *)
Ltac explode H :=
  repeat (match type of H with
          | context [match ?x with _ => _ end] =>
              lazymatch x with
              | context [match _ with _ => _ end] => fail
              | _ => destruct x eqn:?
              end
          end; simplify_eq/=);
  simplify_eq/=.

Ltac main_cases H :=
  unfold main, client, enqueue_task, destroy_threadpool,
    pthread_mutex_lock, pthread_cond_signal in H;
  explode H.

Ltac worker_cases H :=
  unfold thread_loop_function, dequeue_task, client, enqueue_task,
    pthread_mutex_lock, pthread_cond_signal in H;
  explode H.

Ltac step_split H i pc s1 pc' Hat :=
  let Hwho := fresh "Hwho" in
  apply step_inv in H
    as [[Hwho (s1 & pc' & H & ->)] | (i & pc & s1 & pc' & Hwho & Hat & H & ->)].

Ltac step_cases H :=
  let i := fresh "i" in
  let pc := fresh "pc" in
  let s1 := fresh "s" in
  let pc' := fresh "pc" in
  let Hat := fresh "Hat" in
  step_split H i pc s1 pc' Hat; [main_cases H | worker_cases H].

Lemma run_invariant (P : state → Prop) :
  (∀ l s s', P s → step l s = Some s' → P s') →
  ∀ ls s s', P s → run ls s = Some s' → P s'.
Proof.
  intros Hstep ls. induction ls as [|l ls IH]; intros s s' Hs Hrun.
  - by simplify_eq/=.
  - simpl in Hrun. destruct (step l s) as [s1|] eqn:H1; simplify_eq/=.
    eapply IH; [|done]. by eapply Hstep.
Qed.

(** How a step changes the threads array besides the program point of
    the thread that takes it. *)
Lemma woken_only_refl ws : woken_only ws ws.
Proof. intros j. by left. Qed.

Lemma woken_only_wake ws : woken_only ws (wake <$> ws).
Proof.
  intros j. rewrite list_lookup_fmap.
  destruct (ws !! j) as [[]|]; simpl; auto.
Qed.

Lemma woken_only_signal ws k :
  ws !! k = Some LBlocked → woken_only ws (<[k := LWoken]> ws).
Proof.
  intros Hk j. destruct (decide (k = j)) as [->|].
  - right. split; [done|]. by eapply lookup_insert_here.
  - left. by apply list_lookup_insert_ne.
Qed.

Lemma woken_only_length ws ws' : woken_only ws ws' → length ws' = length ws.
Proof.
  intros H.
  destruct (decide (length ws' < length ws)%nat) as [Hlt|Hge].
  - destruct (lookup_lt_is_Some_2 ws (length ws') Hlt) as [pc Hpc].
    destruct (H (length ws')) as [E|[_ E]];
      rewrite lookup_ge_None_2 in E by lia; congruence.
  - destruct (decide (length ws < length ws')%nat) as [Hlt|]; [|lia].
    destruct (lookup_lt_is_Some_2 ws' (length ws) Hlt) as [pc Hpc].
    destruct (H (length ws)) as [E|[E _]];
      rewrite (lookup_ge_None_2 ws) in E by lia; congruence.
Qed.

Lemma woken_only_lookup ws ws' i pc :
  woken_only ws ws' → ws !! i = Some pc → is_blocked pc = false →
  ws' !! i = Some pc.
Proof.
  intros Hw Hi Hb. destruct (Hw i) as [E|[E _]]; [congruence|].
  rewrite Hi in E. by simplify_eq.
Qed.

Lemma worker_frame i pc c s s1 pc' :
  thread_loop_function i pc c s = Some (s1, pc') →
  has_returned pc = false ∧ is_blocked pc = false ∧
  main_at s1 = main_at s ∧ tp_num_threads s1 = tp_num_threads s ∧
  woken_only (threads s) (threads s1).
Proof.
  intros H. worker_cases H.
  all: repeat split;
    auto using woken_only_refl, woken_only_wake, woken_only_signal.
Qed.

(** ** The threads array and the joins of [main] *)

Lemma joined_ext k s s' : threads s' = threads s → joined k s → joined k s'.
Proof. intros E Hj j pc. rewrite E. apply Hj. Qed.

Lemma joined_woken k s s' :
  woken_only (threads s) (threads s') → joined k s → joined k s'.
Proof.
  intros Hw Hj j pc Hlt Hpc.
  destruct (Hw j) as [E|[E1 E2]].
  - eapply Hj; [done|]. by rewrite <- E.
  - specialize (Hj j LBlocked Hlt E1). done.
Qed.

Lemma joined_insert k s s' i pc pc' :
  threads s !! i = Some pc → has_returned pc = false →
  threads s' = <[i := pc']> (threads s) → joined k s → joined k s'.
Proof.
  intros Hi Hr E Hj j q Hlt Hq. rewrite E in Hq.
  destruct (decide (i = j)) as [->|Hne].
  - specialize (Hj j pc Hlt Hi). congruence.
  - rewrite list_lookup_insert_ne in Hq by done. eauto.
Qed.

Lemma joined_all k s :
  (length (threads s) ≤ k)%nat → joined k s → joined (length (threads s)) s.
Proof.
  intros Hk Hj j pc Hlt Hpc. eapply Hj; [|done]. lia.
Qed.

Lemma shape_step l s s' : shape s → step l s = Some s' → shape s'.
Proof.
  intros [Hn Hs] H. unfold shape in *.
  step_split H i pc s1 pc' Hat.
  - main_cases H; simpl in *.
    all: repeat match goal with
                | E : main_at _ = _ |- _ => rewrite E in *; clear E
                end.
    all: (split; [assumption|]); simpl in *.
    all: rewrite ?length_app, ?length_insert; simpl.
    all: try lia.
    all: try (split; [lia|]).
    all: try (eapply joined_ext; [|apply Hs]; done).
    + intros j pc ? ?. lia.
    + intros j pc Hlt Hj. destruct (decide (j = i)) as [->|].
      * by simplify_eq/=.
      * destruct Hs as [_ Hs]. eapply (Hs j); [lia|done].
    + destruct Hs as [Hlen Hs].
      eapply joined_ext; [|eapply joined_all; [|apply Hs]]; [done|lia].
  - apply worker_frame in H as (Hr & Hb & Hm & Hnt & Hw).
    simpl. rewrite Hm, Hnt, length_insert, (woken_only_length _ _ Hw).
    split; [done|].
    pose proof (woken_only_lookup _ _ _ _ Hw Hat Hb) as Hpc.
    assert (Hj : ∀ k, joined k s →
      joined k (set_threads (<[i:=pc']> (threads s1)) s1)).
    { intros k Hk. eapply (joined_insert k s1); [done..|].
      by eapply joined_woken. }
    destruct (main_at s); intuition.
Qed.

Lemma shape_create n g :
  0 ≤ n < uint_modulus → shape (create_threadpool n g).
Proof. intros Hn. split; [done|]. simpl. split; [done|lia]. Qed.

Lemma shape_reachable n g s :
  0 ≤ n < uint_modulus → reachable n g s → shape s.
Proof.
  intros Hn [ls Hrun].
  eapply (run_invariant shape); [apply shape_step| |done].
  by apply shape_create.
Qed.

(** ** Mutual exclusion *)

Lemma worker_mutex i pc c s s1 pc' :
  thread_loop_function i pc c s = Some (s1, pc') →
  mutex_after (Worker i) (loop_holds pc) (loop_holds pc')
    (tp_mutex s) (tp_mutex s1).
Proof. intros H. worker_cases H; done. Qed.

Lemma main_mutex pc c s s1 pc' :
  main pc c s = Some (s1, pc') →
  mutex_after Main (main_holds pc) (main_holds pc')
    (tp_mutex s) (tp_mutex s1).
Proof. intros H. main_cases H; done. Qed.

Lemma exclusion_update s s' me :
  exclusion s →
  (∀ who, who ≠ me → holds s' who = holds s who) →
  mutex_after me (holds s me) (holds s' me) (tp_mutex s) (tp_mutex s') →
  exclusion s'.
Proof.
  intros Hx Hoth Hm who.
  destruct (decide (who = me)) as [->|Hne].
  - pose proof (Hx me) as Hme. unfold mutex_after in Hm.
    destruct (holds s me), (holds s' me); simpl in *.
    + rewrite Hm. done.
    + rewrite Hm. done.
    + destruct Hm as [_ ->]. done.
    + rewrite Hm. done.
  - rewrite (Hoth who Hne). pose proof (Hx who) as Hwho.
    pose proof (Hx me) as Hme. unfold mutex_after in Hm.
    destruct (holds s me), (holds s' me); simpl in *.
    + by rewrite Hm.
    + rewrite Hm. split; [|done]. intros Hh. apply Hwho in Hh.
      destruct Hme as [Hme _]. rewrite Hme in Hh by done. congruence.
    + destruct Hm as [Hm ->]. rewrite Hm in Hwho.
      split; [|congruence]. intros Hh. by apply Hwho in Hh.
    + by rewrite Hm.
Qed.

Lemma main_frame pc c s s1 pc' :
  main pc c s = Some (s1, pc') →
  tp_num_threads s1 = tp_num_threads s ∧
  (woken_only (threads s) (threads s1) ∨
   threads s1 = threads s ++ [LWhile]).
Proof.
  intros H. main_cases H.
  all: split; [done|];
    auto using woken_only_refl, woken_only_wake, woken_only_signal.
Qed.

Lemma holds_worker s j :
  holds s (Worker j) =
    match threads s !! j with Some pc => loop_holds pc | None => false end.
Proof. reflexivity. Qed.

Lemma holds_woken s s' j :
  woken_only (threads s) (threads s') →
  holds s' (Worker j) = holds s (Worker j).
Proof.
  intros Hw. rewrite !holds_worker.
  destruct (Hw j) as [->|[-> ->]]; done.
Qed.

Lemma holds_spawn s s' j :
  threads s' = threads s ++ [LWhile] →
  holds s' (Worker j) = holds s (Worker j).
Proof.
  intros E. rewrite !holds_worker, E.
  destruct (decide (j < length (threads s))%nat).
  - by rewrite lookup_app_l.
  - rewrite lookup_app_r, (lookup_ge_None_2 (threads s)) by lia.
    destruct (j - length (threads s))%nat as [|[|]]; done.
Qed.

Lemma exclusion_step l s s' : exclusion s → step l s = Some s' → exclusion s'.
Proof.
  intros Hx H. step_split H i pc s1 pc' Hat.
  - pose proof (main_mutex _ _ _ _ _ H) as Hm.
    apply main_frame in H as [_ Hw].
    apply (exclusion_update s _ Main); [done| |done].
    intros [|j] Hne; [done|].
    destruct Hw; [by apply (holds_woken s)|by apply (holds_spawn s)].
  - pose proof (worker_mutex _ _ _ _ _ _ H) as Hm.
    apply worker_frame in H as (_ & Hb & Hmain & _ & Hw).
    pose proof (woken_only_lookup _ _ _ _ Hw Hat Hb) as Hpc.
    apply (exclusion_update s _ (Worker i)); [done| |].
    + intros [|j] Hne.
      * simpl. by rewrite Hmain.
      * rewrite holds_worker. simpl.
        rewrite list_lookup_insert_ne by congruence.
        rewrite <- holds_worker. by apply holds_woken.
    + rewrite !holds_worker. simpl.
      by rewrite (lookup_insert_here _ _ _ _ Hpc), Hat.
Qed.

Lemma exclusion_create n g : exclusion (create_threadpool n g).
Proof. intros [|j]; simpl; split; intros; by simplify_eq. Qed.

Lemma exclusion_reachable n g s : reachable n g s → exclusion s.
Proof.
  intros [ls Hrun].
  eapply (run_invariant exclusion); [apply exclusion_step| |done].
  apply exclusion_create.
Qed.

(** ** The waiting counter *)

Lemma counts_range pc : 0 ≤ counts pc ≤ 1.
Proof. destruct pc as [|[| | | | |[]]|[]| | | | | | | | | | |[]]; simpl; lia. Qed.

Lemma count_waiting_range ws : 0 ≤ count_waiting ws ≤ Z.of_nat (length ws).
Proof.
  induction ws as [|pc ws IH]; simpl; [lia|].
  pose proof (counts_range pc). lia.
Qed.

Lemma count_waiting_app ws1 ws2 :
  count_waiting (ws1 ++ ws2) = count_waiting ws1 + count_waiting ws2.
Proof. induction ws1 as [|pc ws1 IH]; simpl; lia. Qed.

Lemma count_waiting_insert ws i pc pc' :
  ws !! i = Some pc →
  count_waiting (<[i := pc']> ws) = count_waiting ws - counts pc + counts pc'.
Proof.
  revert i. induction ws as [|q ws IH]; intros [|i] Hi; simplify_eq/=.
  - lia.
  - rewrite (IH i Hi). lia.
Qed.

Lemma woken_only_tail pc pc' ws ws' :
  woken_only (pc :: ws) (pc' :: ws') →
  counts pc' = counts pc ∧ woken_only ws ws'.
Proof.
  intros H. split.
  - destruct (H 0%nat) as [E|[E1 E2]]; simplify_eq/=; done.
  - intros j. apply (H (S j)).
Qed.

Lemma count_waiting_woken ws ws' :
  woken_only ws ws' → count_waiting ws' = count_waiting ws.
Proof.
  intros Hw. pose proof (woken_only_length _ _ Hw) as Hlen.
  revert ws' Hw Hlen. induction ws as [|pc ws IH]; intros [|pc' ws'] Hw Hlen;
    simplify_eq/=; [done|].
  apply woken_only_tail in Hw as [-> Hw]. by rewrite (IH ws').
Qed.

Lemma worker_count i pc c s s1 pc' :
  thread_loop_function i pc c s = Some (s1, pc') →
  waiting_threads (glob s1) =
    if decide (counts pc' = counts pc) then waiting_threads (glob s)
    else wrap (waiting_threads (glob s) + counts pc' - counts pc).
Proof.
  intros H. worker_cases H; simpl; try done.
  all: try (f_equal; lia).
  by destruct r.
Qed.

Lemma main_count pc c s s1 pc' :
  main pc c s = Some (s1, pc') →
  waiting_threads (glob s1) =
    match pc with MDestroy DsWaiting => 0 | _ => waiting_threads (glob s) end.
Proof. intros H. main_cases H; done. Qed.

Lemma worker_not_joined s i pc :
  shape s → threads s !! i = Some pc → has_returned pc = false →
  in_destroy (main_at s) = false.
Proof.
  intros [_ Hs] Hi Hr.
  destruct (main_at s); try done; destruct Hs as [_ Hj].
  all: specialize (Hj i pc (lookup_lt_Some _ _ _ Hi) Hi); congruence.
Qed.

Lemma counted_step l s s' :
  shape s → counted s → step l s = Some s' → counted s'.
Proof.
  intros Hs Hc H. pose proof (shape_step _ _ _ Hs H) as Hs'.
  unfold counted in *. step_split H i pc s1 pc' Hat.
  - main_cases H; simpl in *.
    all: repeat match goal with
                | E : main_at _ = _ |- _ => rewrite E in *; clear E
                end.
    all: try done.
    + rewrite count_waiting_app. simpl. lia.
    + erewrite count_waiting_insert by done. simpl. lia.
  - pose proof (worker_count _ _ _ _ _ _ H) as Hw.
    apply worker_frame in H as (Hr & Hb & Hm & Hnt & Hwk).
    pose proof (worker_not_joined _ _ _ Hs Hat Hr) as Hnd.
    pose proof (woken_only_lookup _ _ _ _ Hwk Hat Hb) as Hpc.
    assert (Hcount : waiting_threads (glob s) = count_waiting (threads s)).
    { destruct (main_at s) as [| | |[]|]; done. }
    assert (Hnew : waiting_threads (glob s1) =
                   count_waiting (<[i:=pc']> (threads s1))).
    { rewrite (count_waiting_insert _ _ _ _ Hpc).
      rewrite (count_waiting_woken _ _ Hwk), <- Hcount, Hw.
      case_decide as Hd; [lia|].
      replace (waiting_threads (glob s) + counts pc' - counts pc)
        with (waiting_threads (glob s) - counts pc + counts pc') by lia.
      apply wrap_small.
      pose proof (count_waiting_range (<[i:=pc']> (threads s1))) as Hrg.
      rewrite (count_waiting_insert _ _ _ _ Hpc) in Hrg.
      rewrite (count_waiting_woken _ _ Hwk), <- Hcount in Hrg.
      destruct Hs' as [Hn Hs']. simpl in *.
      assert (Z.of_nat (length (<[i:=pc']> (threads s1))) ≤ tp_num_threads s1).
      { destruct (main_at s1); lia. }
      lia. }
    simpl. rewrite Hm. destruct (main_at s) as [| | |[]|]; done.
Qed.

Lemma counted_create n g : counted (create_threadpool n g).
Proof. reflexivity. Qed.

Lemma counted_reachable n g s :
  0 ≤ n < uint_modulus → reachable n g s → shape s ∧ counted s.
Proof.
  intros Hn [ls Hrun].
  eapply (run_invariant (λ s, shape s ∧ counted s)); [| |done].
  - intros l s0 s1 [Hs Hc] H.
    split; [by eapply shape_step|by eapply counted_step].
  - split; [by apply shape_create|apply counted_create].
Qed.

(** ** The stop decision *)

Lemma worker_gave_up i pc c s s1 pc' :
  thread_loop_function i pc c s = Some (s1, pc') →
  gave_up pc = true → gave_up pc' = true.
Proof. intros H. worker_cases H; done. Qed.

Lemma worker_active i pc c s s1 pc' :
  thread_loop_function i pc c s = Some (s1, pc') →
  (tp_active s1 = tp_active s ∧ pc ≠ LStop) ∨ (tp_active s1 = 0 ∧ pc = LStop).
Proof. intros H. worker_cases H; auto. Qed.

Lemma main_active pc c s s1 pc' :
  main pc c s = Some (s1, pc') →
  tp_active s1 = tp_active s ∨ (tp_active s1 = 0 ∧ pc = MDestroy DsActive).
Proof. intros H. main_cases H; auto. Qed.

Lemma worker_to_stop i pc c s s1 :
  thread_loop_function i pc c s = Some (s1, LStop) →
  pc = LTest ∧ waiting_threads (glob s) = tp_num_threads s.
Proof. intros H. worker_cases H. split; [done|lia]. Qed.

Lemma worker_return_false i pc c s s1 :
  thread_loop_function i pc c s = Some (s1, LReturn false) →
  pc = LWhile ∧ tp_active s ≠ 1.
Proof. intros H. worker_cases H. split; [done|lia]. Qed.

Lemma main_spawn pc c s s1 pc' :
  main pc c s = Some (s1, pc') →
  woken_only (threads s) (threads s1) ∨
  (threads s1 = threads s ++ [LWhile] ∧
   ∃ k, pc = MCreate k ∧ Z.of_nat k < tp_num_threads s).
Proof.
  intros H. main_cases H.
  all: auto using woken_only_refl, woken_only_wake, woken_only_signal.
  right. split; [done|]. eexists. split; [done|lia].
Qed.

Lemma quiescent_step l s s' :
  shape s → quiescent s → step l s = Some s' → quiescent s'.
Proof.
  intros Hs [Hlen Hq] H. step_split H i pc s1 pc' Hat.
  - pose proof (main_frame _ _ _ _ _ H) as [Hnt _].
    apply main_spawn in H as [Hw|[E (k & Hk & Hlt)]].
    + split; simpl.
      * rewrite (woken_only_length _ _ Hw). lia.
      * intros j pc Hj. destruct (Hw j) as [E|[_ E]]; [|by simplify_eq].
        rewrite E in Hj. eauto.
    + destruct Hs as [_ Hs]. rewrite Hk in Hs. lia.
  - pose proof (worker_gave_up _ _ _ _ _ _ H (Hq _ _ Hat)) as Hg.
    apply worker_frame in H as (Hr & Hb & Hm & Hnt & Hw).
    split; simpl.
    + rewrite length_insert, (woken_only_length _ _ Hw). lia.
    + intros j q Hj.
      apply list_lookup_insert_Some in Hj as [(_ & <- & _)|[_ Hj]]; [done|].
      destruct (Hw j) as [E|[_ E]]; [|by simplify_eq].
      rewrite E in Hj. eauto.
Qed.

Lemma count_full ws j pc :
  count_waiting ws = Z.of_nat (length ws) → ws !! j = Some pc → counts pc = 1.
Proof.
  revert j. induction ws as [|q ws IH]; intros j Hc Hj; [done|].
  simpl in Hc. pose proof (counts_range q).
  pose proof (count_waiting_range ws).
  destruct j as [|j]; simplify_eq/=; [lia|].
  apply (IH j); [lia|done].
Qed.

Lemma counts_one pc :
  counts pc = 1 → gave_up pc = true ∨ (loop_holds pc = true ∧ pc ≠ LTest).
Proof.
  destruct pc as [|[| | | | |[]]|[]| | | | | | | | | | |[]]; simpl; auto; lia.
Qed.

Lemma shape_length s : shape s → Z.of_nat (length (threads s)) ≤ tp_num_threads s.
Proof. intros [_ Hs]. destruct (main_at s); lia. Qed.

Lemma test_quiescent s i :
  shape s → exclusion s → counted s →
  threads s !! i = Some LTest →
  waiting_threads (glob s) = tp_num_threads s →
  quiescent s.
Proof.
  intros Hs Hx Hc Hi Hw.
  pose proof (worker_not_joined _ _ _ Hs Hi eq_refl) as Hnd.
  assert (Hcount : waiting_threads (glob s) = count_waiting (threads s)).
  { unfold counted in Hc. destruct (main_at s) as [| | |[]|]; done. }
  pose proof (shape_length _ Hs) as Hlen.
  pose proof (count_waiting_range (threads s)) as Hrg.
  assert (Hfull : count_waiting (threads s) = Z.of_nat (length (threads s)))
    by lia.
  split; [lia|]. intros j pc Hj.
  destruct (counts_one pc (count_full _ _ _ Hfull Hj)) as [|[Hh Hne]]; [done|].
  assert (Hmj : tp_mutex s = Some (Worker j)).
  { apply Hx. rewrite holds_worker. by rewrite Hj. }
  assert (Hmi : tp_mutex s = Some (Worker i)).
  { apply Hx. rewrite holds_worker. by rewrite Hi. }
  assert (j = i) by congruence. subst j. congruence.
Qed.

Lemma destroy_quiescent s :
  shape s → stop_inv s → in_destroy (main_at s) = true → quiescent s.
Proof.
  intros [_ Hs] (_ & _ & Hb) Hd.
  assert (Hj : Z.of_nat (length (threads s)) = tp_num_threads s ∧
               joined (length (threads s)) s).
  { destruct (main_at s); done. }
  destruct Hj as [Hlen Hj]. split; [done|]. intros j pc Hpc.
  specialize (Hj j pc (lookup_lt_Some _ _ _ Hpc) Hpc).
  destruct pc as [| | | | | | | | | | | | |[]]; try done.
  by destruct (Hb j).
Qed.

Lemma stopping_cause l s s' :
  step l s = Some s' → stopping s' →
  stopping s ∨
  (∃ i, threads s !! i = Some LTest ∧
        waiting_threads (glob s) = tp_num_threads s) ∨
  main_at s = MDestroy DsActive.
Proof.
  intros H Hst. step_split H i pc s1 pc' Hat.
  - pose proof (main_active _ _ _ _ _ H) as Ha.
    apply main_spawn in H as Hw.
    destruct Ha as [Ha|[_ Ha]]; [|auto].
    left. destruct Hst as [Hst|[j Hj]]; simpl in *.
    + left. congruence.
    + right. destruct Hw as [Hw|[E _]].
      * destruct (Hw j) as [E|[_ E]]; [|congruence].
        exists j. congruence.
      * rewrite E in Hj. apply lookup_app_Some in Hj as [Hj|[_ Hj]]; [eauto|].
        destruct (j - length (threads s))%nat as [|[|]]; done.
  - pose proof (worker_active _ _ _ _ _ _ H) as Ha.
    destruct Ha as [[Ha _]|[_ ->]]; [|left; right; eauto].
    destruct Hst as [Hst|[j Hj]]; simpl in *.
    + left. left. congruence.
    + apply list_lookup_insert_Some in Hj as [(_ & -> & _)|[_ Hj]].
      * apply worker_to_stop in H as [-> Hw]. right. left. eauto.
      * apply worker_frame in H as (_ & _ & _ & _ & Hw).
        left. right. destruct (Hw j) as [E|[_ E]]; [|congruence].
        exists j. congruence.
Qed.

Lemma stop_inv_step l s s' :
  shape s → exclusion s → counted s → stop_inv s →
  step l s = Some s' → stop_inv s'.
Proof.
  intros Hs Hx Hc Hinv H.
  pose proof Hinv as (Hbin & Hq & Hb).
  split; [|split].
  - step_split H i pc s1 pc' Hat; simpl.
    + destruct (main_active _ _ _ _ _ H) as [->|[-> _]]; auto.
    + destruct (worker_active _ _ _ _ _ _ H) as [[-> _]|[-> _]]; auto.
  - intros Hst. eapply quiescent_step; [done| |done].
    destruct (stopping_cause _ _ _ H Hst) as [?|[(i & Hi & Hw)|Hd]]; [auto| |].
    + by eapply test_quiescent.
    + apply destroy_quiescent; [done..|]. by rewrite Hd.
  - intros j Hj. step_split H i pc s1 pc' Hat; simpl in *.
    + apply main_spawn in H as [Hw|[E _]].
      * destruct (Hw j) as [E|[_ E]]; [|congruence].
        apply (Hb j). congruence.
      * rewrite E in Hj. apply lookup_app_Some in Hj as [Hj|[_ Hj]].
        -- by apply (Hb j).
        -- destruct (j - length (threads s))%nat as [|[|]]; done.
    + apply list_lookup_insert_Some in Hj as [(_ & -> & _)|[_ Hj]].
      * apply worker_return_false in H as [-> Ha].
        destruct (Hq (or_introl Ha)) as [_ Hg].
        specialize (Hg _ _ Hat). done.
      * apply worker_frame in H as (_ & _ & _ & _ & Hw).
        destruct (Hw j) as [E|[_ E]]; [|congruence].
        apply (Hb j). congruence.
Qed.

Lemma stop_inv_create n g : stop_inv (create_threadpool n g).
Proof.
  split; [by right|]. split.
  - intros [Ha|[j Hj]]; [done|]. by destruct j.
  - intros j. by destruct j.
Qed.

Lemma invariant_step l s s' : invariant s → step l s = Some s' → invariant s'.
Proof.
  intros (Hs & Hx & Hc & Hq) H.
  split; [by eapply shape_step|].
  split; [by eapply exclusion_step|].
  split; [by eapply counted_step|by eapply stop_inv_step].
Qed.

Lemma invariant_create n g :
  0 ≤ n < uint_modulus → invariant (create_threadpool n g).
Proof.
  intros Hn.
  split; [by apply shape_create|].
  split; [apply exclusion_create|].
  split; [apply counted_create|apply stop_inv_create].
Qed.

Lemma invariant_run n g ls s :
  0 ≤ n < uint_modulus → run ls (create_threadpool n g) = Some s → invariant s.
Proof.
  intros Hn Hrun.
  eapply (run_invariant invariant); [apply invariant_step| |done].
  by apply invariant_create.
Qed.

(** ** Some worker stops the pool *)

Lemma count_all_one ws :
  (∀ j pc, ws !! j = Some pc → counts pc = 1) →
  count_waiting ws = Z.of_nat (length ws).
Proof.
  induction ws as [|q ws IH]; intros H; [done|].
  simpl count_waiting. rewrite (H 0%nat q eq_refl), IH.
  - simpl length. lia.
  - intros j pc Hj. apply (H (S j)). done.
Qed.

Lemma worker_pass i pc c s s1 pc' :
  thread_loop_function i pc c s = Some (s1, pc') →
  past_test pc = false → past_test pc' = true →
  pc = LStop ∨
  (pc = LTest ∧ waiting_threads (glob s) ≠ tp_num_threads s) ∨
  (pc = LWhile ∧ tp_active s ≠ 1).
Proof.
  intros H. worker_cases H; try done; intros _ _; auto.
  - right. right. split; [done|lia].
  - right. left. split; [done|lia].
  - right. left. split; [done|lia].
Qed.

Lemma past_counts pc : past_test pc = true → pc ≠ LReturn false → counts pc = 1.
Proof. destruct pc as [| | | | | | | | | | | | |[]]; done. Qed.

Lemma all_past_step l s s' :
  invariant s → (all_past s → tp_active s = 0) →
  step l s = Some s' → all_past s' → tp_active s' = 0.
Proof.
  intros (Hs & Hx & Hc & Hbin & Hq & Hb) IH H (Hlen & Hpos & Hp).
  step_split H i pc s1 pc' Hat; simpl in *.
  - pose proof (main_active _ _ _ _ _ H) as Ha.
    pose proof (main_frame _ _ _ _ _ H) as [Hnt _].
    apply main_spawn in H as [Hw|[E _]].
    + destruct Ha as [Ha|[Ha _]]; [|done]. rewrite Ha. apply IH.
      split; [|split]; [rewrite <- (woken_only_length _ _ Hw); lia|lia|].
      intros j pc Hj. destruct (Hw j) as [E|[E _]].
      * apply (Hp j). congruence.
      * rewrite Hj in E. by simplify_eq.
    + specialize (Hp (length (threads s)) LWhile). rewrite E in Hp.
      rewrite lookup_app_r, Nat.sub_diag in Hp by lia. by specialize (Hp eq_refl).
  - pose proof (worker_active _ _ _ _ _ _ H) as Ha.
    pose proof (worker_pass _ _ _ _ _ _ H) as Hpass.
    pose proof (proj1 (worker_frame _ _ _ _ _ _ H)) as Hret.
    apply worker_frame in H as (_ & Hbl & Hm & Hnt & Hw).
    pose proof (woken_only_lookup _ _ _ _ Hw Hat Hbl) as Hpc.
    rewrite length_insert in Hlen.
    assert (Hi' : past_test pc' = true).
    { apply (Hp i). by eapply lookup_insert_here. }
    assert (Hothers : ∀ j q, j ≠ i → threads s !! j = Some q →
                             past_test q = true).
    { intros j q Hne Hj. destruct (Hw j) as [E|[E _]].
      - apply (Hp j). rewrite list_lookup_insert_ne by done. congruence.
      - rewrite Hj in E. by simplify_eq. }
    destruct (past_test pc) eqn:Hpast.
    + destruct Ha as [[Ha _]|[Ha _]]; [|done]. rewrite Ha. apply IH.
      split; [|split]; [rewrite <- (woken_only_length _ _ Hw); lia|lia|].
      intros j q Hj. destruct (decide (j = i)) as [->|Hne]; [|eauto].
      by simplify_eq.
    + destruct (Hpass eq_refl Hi') as [->|[[-> Hne]|[-> Hne]]].
      * by destruct Ha as [[_ ?]|[? _]].
      * exfalso. apply Hne.
        pose proof (worker_not_joined _ _ _ Hs Hat eq_refl) as Hnd.
        assert (Hcount : waiting_threads (glob s) = count_waiting (threads s)).
        { unfold counted in Hc. destruct (main_at s) as [| | |[]|]; done. }
        rewrite Hcount, count_all_one.
        -- rewrite <- (woken_only_length _ _ Hw). lia.
        -- intros j q Hj. destruct (decide (j = i)) as [->|Hji].
           ++ by simplify_eq.
           ++ apply past_counts; [by eapply Hothers|].
              intros ->. by apply (Hb j).
      * destruct Ha as [[Ha _]|[Ha _]]; [|done]. lia.
Qed.

Lemma all_past_create n g : ¬ all_past (create_threadpool n g).
Proof. intros (Hlen & Hpos & _). simpl in *. lia. Qed.

Lemma all_past_run n g ls s :
  0 ≤ n < uint_modulus → run ls (create_threadpool n g) = Some s →
  all_past s → tp_active s = 0.
Proof.
  intros Hn Hrun.
  cut (invariant s ∧ (all_past s → tp_active s = 0)); [tauto|].
  eapply (run_invariant (λ s, invariant s ∧ (all_past s → tp_active s = 0)));
    [| |done].
  - intros l s0 s1 [Hinv IH] H. split; [by eapply invariant_step|].
    by eapply all_past_step.
  - split; [by apply invariant_create|].
    intros Hp. by apply all_past_create in Hp.
Qed.

Lemma all_returned_past s : all_returned s → all_past s.
Proof.
  intros (Hlen & Hpos & Hr). split; [done|]. split; [done|].
  intros j pc Hj. specialize (Hr j pc Hj). by destruct pc.
Qed.

(** ** The claims about the flag and the counter *)

Lemma step_active l s s' :
  step l s = Some s' → tp_active s' = tp_active s ∨ tp_active s' = 0.
Proof.
  intros H. step_split H i pc s1 pc' Hat; simpl.
  - destruct (main_active _ _ _ _ _ H) as [|[? _]]; auto.
  - destruct (worker_active _ _ _ _ _ _ H) as [[? _]|[? _]]; auto.
Qed.

Lemma step_stays_inactive l s s' :
  step l s = Some s' → is_active s = false → is_active s' = false.
Proof.
  unfold is_active. intros H Hs.
  destruct (step_active _ _ _ H) as [->| ->]; done.
Qed.

Lemma states_of_cons l ls s s' :
  step l s = Some s' → states_of (l :: ls) s = s :: states_of ls s'.
Proof. intros H. simpl. by rewrite H. Qed.

Lemma states_of_head ls s : ∃ rest, states_of ls s = s :: rest.
Proof. destruct ls; simpl; eauto. Qed.

Lemma flips_run ls s0 s :
  run ls s0 = Some s →
  reactivations (states_of ls s0) = 0%nat ∧
  deactivations (states_of ls s0) =
    (if is_active s0 && negb (is_active s) then 1 else 0)%nat ∧
  (is_active s0 = false → is_active s = false).
Proof.
  revert s0. induction ls as [|l ls IH]; intros s0 Hrun.
  - simplify_eq/=. by destruct (is_active s).
  - rewrite run_cons in Hrun.
    destruct (step l s0) as [s1|] eqn:H1; simplify_eq/=.
    destruct (IH s1 Hrun) as (Hre & Hde & Hst).
    pose proof (step_stays_inactive _ _ _ H1) as Hin.
    rewrite H1. destruct (states_of_head ls s1) as [rest E].
    rewrite E in *. rewrite Hre, Hde.
    destruct (is_active s0), (is_active s1), (is_active s);
      simpl in *; auto; try (by specialize (Hin eq_refl));
      try (by specialize (Hst eq_refl)).
Qed.

Lemma destroyed_inactive l s s' :
  (main_at s = MDestroy DsWaiting ∨ main_at s = MDestroy DsPurge ∨
   main_at s = MExit → tp_active s = 0) →
  step l s = Some s' →
  main_at s' = MDestroy DsWaiting ∨ main_at s' = MDestroy DsPurge ∨
  main_at s' = MExit → tp_active s' = 0.
Proof.
  intros IH H Hm. step_split H i pc s1 pc' Hat; simpl in *.
  - main_cases H; simpl in *; try done; try (by destruct Hm as [|[|]]).
    all: apply IH; auto.
  - destruct (worker_active _ _ _ _ _ _ H) as [[-> _]|[-> _]]; [|done].
    apply worker_frame in H as (_ & _ & E & _). rewrite E in Hm. auto.
Qed.

Lemma exit_inactive n g ls s :
  run ls (create_threadpool n g) = Some s → main_at s = MExit →
  tp_active s = 0.
Proof.
  intros Hrun Hm.
  eapply (run_invariant (λ s, main_at s = MDestroy DsWaiting ∨
            main_at s = MDestroy DsPurge ∨ main_at s = MExit →
            tp_active s = 0)); [| |done|auto].
  - intros l s0 s1. apply destroyed_inactive.
  - simpl. by intros [|[|]].
Qed.

(** C6: starting from a freshly created pool, whose flag is true, the
    flag never goes from false to true and goes from true to false at
    most once; it has done so exactly once when the run is complete,
    that is when [main] has reached the end of [destroy_threadpool],
    and already when the workers (at least one) have all returned. *)
Theorem active_flag_one_way n g ls s :
  0 ≤ n < uint_modulus →
  run ls (create_threadpool n g) = Some s →
  is_active (create_threadpool n g) = true ∧
  reactivations (states_of ls (create_threadpool n g)) = 0%nat ∧
  (deactivations (states_of ls (create_threadpool n g)) ≤ 1)%nat ∧
  (main_at s = MExit ∨ all_returned s →
   deactivations (states_of ls (create_threadpool n g)) = 1%nat).
Proof.
  intros Hn Hrun. destruct (flips_run _ _ _ Hrun) as (Hre & Hde & _).
  split; [done|]. split; [done|]. rewrite Hde. split.
  - destruct (_ && _); lia.
  - intros Hdone.
    assert (Ha : tp_active s = 0).
    { destruct Hdone as [Hm|Hr]; [by eapply exit_inactive|].
      eapply all_past_run; [done..|]. by apply all_returned_past. }
    unfold is_active at 2. rewrite Ha. done.
Qed.

Lemma active_flag_one_way_witness :
  ∃ s, run late_submission (create_threadpool 1 (Statics 0 0)) = Some s ∧
       main_at s = MExit ∧
       deactivations
         (states_of late_submission (create_threadpool 1 (Statics 0 0)))
       = 1%nat.
Proof.
  eexists. split; [vm_compute; reflexivity|]. split; [reflexivity|].
  eapply (active_flag_one_way 1 (Statics 0 0) late_submission).
  - unfold uint_modulus. lia.
  - vm_compute. reflexivity.
  - left. reflexivity.
Defined.

Lemma num_threads_run n g ls s :
  run ls (create_threadpool n g) = Some s → tp_num_threads s = n.
Proof.
  intros Hrun.
  eapply (run_invariant (λ s, tp_num_threads s = n)); [| |done]; [|done].
  intros l s0 s1 <- H. step_split H i pc s2 pc' Hat; simpl.
  - by apply main_frame in H as [? _].
  - by apply worker_frame in H as (_ & _ & _ & ? & _).
Qed.

(** C7: in every state a freshly created pool of [n] workers can
    reach, hence after every release of the mutex, [waiting_threads]
    is at least 0 and at most [n]. *)
Theorem waiting_threads_in_range n g ls s :
  0 ≤ n < uint_modulus →
  run ls (create_threadpool n g) = Some s →
  tp_num_threads s = n ∧ 0 ≤ waiting_threads (glob s) ≤ n.
Proof.
  intros Hn Hrun. pose proof (num_threads_run _ _ _ _ Hrun) as Hnt.
  split; [done|].
  destruct (invariant_run _ _ _ _ Hn Hrun) as (Hs & _ & Hc & _).
  pose proof (shape_length _ Hs) as Hlen.
  pose proof (count_waiting_range (threads s)) as Hrg.
  unfold counted in Hc. destruct (main_at s) as [| | |[]|]; lia.
Qed.

Lemma waiting_threads_in_range_witness :
  ∃ s, run (firstn 8 late_submission) (create_threadpool 1 (Statics 0 0))
       = Some s ∧ waiting_threads (glob s) = 1 ∧
       0 ≤ waiting_threads (glob s) ≤ 1.
Proof.
  eexists. split; [vm_compute; reflexivity|]. split; [reflexivity|].
  eapply (waiting_threads_in_range 1 (Statics 0 0) (firstn 8 late_submission)).
  - unfold uint_modulus. lia.
  - vm_compute. reflexivity.
Defined.

(** ** First in, first out *)

Lemma step_queue_change l s s' : step l s = Some s' → queue_change s s'.
Proof.
  intros H. step_split H i pc s1 pc' Hat.
  - main_cases H.
    all: try (apply QSame; simpl; auto; fail).
    + eapply QAdd; simpl; done.
    + eapply QPurge; simpl; [done..|]. by rewrite Heqm.
  - worker_cases H.
    all: try (apply QSame; simpl; eauto; fail).
    + eapply QPop; simpl; eauto.
    + eapply QAdd; simpl; done.
Qed.

Lemma step_in_destroy l s s' :
  step l s = Some s' → in_destroy (main_at s) = true →
  in_destroy (main_at s') = true.
Proof.
  intros H Hd. step_split H i pc s1 pc' Hat; simpl.
  - main_cases H; simpl in *; try done.
    all: by rewrite ?Heqm in Hd.
  - apply worker_frame in H as (_ & _ & -> & _). done.
Qed.

Lemma fifo_step l s s' : shape s → fifo s → step l s = Some s' → fifo s'.
Proof.
  intros Hs [Hf Hp] H. pose proof (step_in_destroy _ _ _ H) as Hd.
  destruct (step_queue_change _ _ _ H) as
    [Hq Hh|t Hq Hh|t Hq Hh Hm (i & pc & Hi & Hr)|t Hq Hh Hin]; split.
  - destruct Hh as [->|[t ->]]; simpl; by rewrite Hq.
  - destruct Hh as [->|[t ->]]; simpl; auto.
  - rewrite Hh, Hq, Hf. simpl. by rewrite !app_assoc.
  - rewrite Hh. simpl. auto.
  - pose proof (worker_not_joined _ _ _ Hs Hi Hr) as Hnd.
    rewrite Hh, Hf, Hq. simpl.
    destruct (purged (hist s)) as [|x xs] eqn:Hpur.
    + simpl. by rewrite <- app_assoc.
    + rewrite Hp in Hnd; done.
  - rewrite Hh. simpl. auto.
  - rewrite Hh, Hf, Hq. simpl. by rewrite <- !app_assoc.
  - auto.
Qed.

Lemma fifo_run n g ls s :
  0 ≤ n < uint_modulus → run ls (create_threadpool n g) = Some s → fifo s.
Proof.
  intros Hn Hrun.
  cut (shape s ∧ fifo s); [tauto|].
  eapply (run_invariant (λ s, shape s ∧ fifo s)); [| |done].
  - intros l s0 s1 [Hs Hf] H.
    split; [by eapply shape_step|by eapply fifo_step].
  - split; [by apply shape_create|]. split; [done|]. simpl. done.
Qed.

(** C8: the queue is first in, first out.  A statement leaves the
    queue as it is, links one task at its tail ([enqueue_task]) or
    unlinks the task at its head; and in every state a freshly created
    pool can reach, the tasks linked so far are, in the order of their
    linking, the tasks [dequeue_task] has returned, then those the
    purge has dropped, then the queue: the [k]-th task returned by
    [dequeue_task] is the [k]-th task linked, so of two tasks linked
    one after the other the first is at the head first. *)
Theorem queue_is_fifo n g ls s :
  0 ≤ n < uint_modulus →
  run ls (create_threadpool n g) = Some s →
  added (hist s) = removed (hist s) ++ purged (hist s) ++ tp_head s ∧
  (∀ k t, removed (hist s) !! k = Some t → added (hist s) !! k = Some t) ∧
  (∀ l s', step l s = Some s' →
     tp_head s' = tp_head s ∨
     (∃ t, tp_head s' = tp_head s ++ [t] ∧
           added (hist s') = added (hist s) ++ [t]) ∨
     (∃ t, tp_head s = t :: tp_head s')).
Proof.
  intros Hn Hrun. destruct (fifo_run _ _ _ _ Hn Hrun) as [Hf _].
  split; [done|]. split.
  - intros k t Hk. rewrite Hf. by apply lookup_app_l_Some.
  - intros l s' H.
    destruct (step_queue_change _ _ _ H) as
      [Hq Hh|t Hq Hh|t Hq Hh _ _|t Hq Hh _]; eauto.
    right. left. exists t. rewrite Hh. auto.
Qed.

(** ** The queue of a stopped pool *)

Lemma gave_up_counts pc : gave_up pc = true → counts pc = 1.
Proof. by destruct pc as [|[| | | | |[]]|[]| | | | | | | | | | |[]]. Qed.

Lemma quiescent_count s :
  quiescent s → count_waiting (threads s) = tp_num_threads s.
Proof.
  intros [Hlen Hq]. rewrite count_all_one; [done|].
  intros j pc Hj. apply gave_up_counts. eauto.
Qed.

Lemma worker_gives_up i pc c s s1 pc' :
  thread_loop_function i pc c s = Some (s1, pc') →
  gave_up pc = false → gave_up pc' = true →
  pc = LDequeue DqTest ∧ s1 = s ∧ (tp_head s = [] ∨ tp_active s ≠ 1).
Proof.
  intros H. worker_cases H; try done; try (by destruct r). intros _ _.
  split; [done|]. split; [done|].
  unfold queue_is_empty in *. destruct (tp_head s1); [by left|].
  right. simpl in *. lia.
Qed.

Lemma quiescent_cause l s s' :
  step l s = Some s' → quiescent s' →
  quiescent s ∨
  (∃ i, threads s !! i = Some (LDequeue DqTest) ∧
        (tp_head s = [] ∨ tp_active s ≠ 1) ∧ tp_head s' = tp_head s).
Proof.
  intros H [Hlen Hq]. step_split H i pc s1 pc' Hat; simpl in *.
  - left. pose proof (main_frame _ _ _ _ _ H) as [Hnt _].
    apply main_spawn in H as [Hw|[E _]].
    + split; [rewrite <- (woken_only_length _ _ Hw); lia|].
      intros j pc Hj. destruct (Hw j) as [E|[E _]].
      * apply (Hq j). congruence.
      * rewrite Hj in E. by simplify_eq.
    + specialize (Hq (length (threads s)) LWhile). rewrite E in Hq.
      rewrite lookup_app_r, Nat.sub_diag in Hq by lia.
      by specialize (Hq eq_refl).
  - pose proof (worker_gives_up _ _ _ _ _ _ H) as Hg.
    apply worker_frame in H as (_ & Hbl & Hm & Hnt & Hw).
    pose proof (woken_only_lookup _ _ _ _ Hw Hat Hbl) as Hpc.
    rewrite length_insert in Hlen.
    assert (Hi' : gave_up pc' = true).
    { apply (Hq i). by eapply lookup_insert_here. }
    assert (Hothers : ∀ j q, j ≠ i → threads s !! j = Some q →
                             gave_up q = true).
    { intros j q Hne Hj. destruct (Hw j) as [E|[E _]].
      - apply (Hq j). rewrite list_lookup_insert_ne by done. congruence.
      - rewrite Hj in E. by simplify_eq. }
    destruct (gave_up pc) eqn:Hgave.
    + left. split; [rewrite <- (woken_only_length _ _ Hw); lia|].
      intros j q Hj. destruct (decide (j = i)) as [->|Hne]; [|eauto].
      by simplify_eq.
    + right. destruct (Hg eq_refl Hi') as (-> & -> & Hor). eauto.
Qed.

Lemma step_head l s s' :
  step l s = Some s' → adds_task l s = false →
  tp_head s' = tp_head s ∨ ∃ t, tp_head s = t :: tp_head s'.
Proof.
  intros H Ha. unfold adds_task in Ha.
  step_split H i pc s1 pc' Hat; rewrite Hwho in Ha.
  - main_cases H; simpl in *; eauto.
  - rewrite Hat in Ha. worker_cases H; simpl in *; eauto.
Qed.

Lemma adds_task_not_destroy l s :
  shape s → adds_task l s = true → in_destroy (main_at s) = false.
Proof.
  intros Hs Ha. unfold adds_task in Ha. destruct (l.1) as [|i].
  - by destruct (main_at s).
  - destruct (threads s !! i) as [pc|] eqn:Hi; [|done].
    apply (worker_not_joined s i pc); [done..|]. by destruct pc.
Qed.

Lemma empty_when_quiescent_step l s s' :
  invariant s → (quiescent s → tp_head s = []) →
  step l s = Some s' →
  adds_task l s && (waiting_threads (glob s) =? tp_num_threads s) = false →
  quiescent s' → tp_head s' = [].
Proof.
  intros (Hs & Hx & Hc & Hbin & Hst & Hb) IH H Hlate Hq'.
  destruct (quiescent_cause _ _ _ H Hq') as [Hq|(i & Hi & Hor & Hh)].
  - specialize (IH Hq).
    destruct (adds_task l s) eqn:Ha.
    + exfalso. simpl in Hlate.
      pose proof (adds_task_not_destroy _ _ Hs Ha) as Hnd.
      pose proof (quiescent_count _ Hq) as Hcnt.
      unfold counted in Hc. destruct (main_at s) as [| | |[]|]; try done; lia.
    + destruct (step_head _ _ _ H Ha) as [->|[t Ht]]; [done|].
      by rewrite IH in Ht.
  - rewrite Hh. destruct Hor as [|Ha]; [done|].
    destruct (Hst (or_introl Ha)) as [_ Hg].
    by specialize (Hg _ _ Hi).
Qed.

Lemma empty_when_quiescent n g ls s :
  0 ≤ n < uint_modulus →
  run ls (create_threadpool n g) = Some s →
  no_late_add ls (create_threadpool n g) = true →
  invariant s ∧ (quiescent s → tp_head s = []).
Proof.
  intros Hn.
  assert (Hgen : ∀ ls s0, invariant s0 ∧ (quiescent s0 → tp_head s0 = []) →
            run ls s0 = Some s → no_late_add ls s0 = true →
            invariant s ∧ (quiescent s → tp_head s = [])).
  { clear ls. intros ls. induction ls as [|l ls IH]; intros s0 [Hinv H0] Hrun Hq.
    - by simplify_eq/=.
    - rewrite run_cons in Hrun. simpl in Hq.
      destruct (step l s0) as [s1|] eqn:H1; simplify_eq/=.
      apply andb_prop in Hq as [Hl Hq].
      apply negb_true_iff in Hl.
      apply (IH s1); [|done..]. split; [by eapply invariant_step|].
      by eapply empty_when_quiescent_step. }
  intros Hrun Hq. apply (Hgen ls (create_threadpool n g)); [|done..].
  split; [by apply invariant_create|]. done.
Qed.

(** C5, as the code has it: in every execution in which no task is
    linked while [waiting_threads] equals the number of workers, a pool
    whose flag is false has an empty queue. *)
Theorem inactive_queue_empty n g ls s :
  0 ≤ n < uint_modulus →
  run ls (create_threadpool n g) = Some s →
  no_late_add ls (create_threadpool n g) = true →
  tp_active s = 0 → tp_head s = [].
Proof.
  intros Hn Hrun Hq Ha.
  destruct (empty_when_quiescent _ _ _ _ Hn Hrun Hq)
    as [(_ & _ & _ & _ & Hst & _) He].
  apply He, Hst. left. lia.
Qed.

(** One worker: task 7 is submitted, dequeued and run, the worker then
    finds the queue empty and stops the pool. *)
Lemma inactive_queue_empty_witness :
  ∃ s, run (firstn 29 clean_run) (create_threadpool 1 (Statics 0 0)) = Some s ∧
       added (hist s) = [7%nat] ∧ executed (hist s) = [7%nat] ∧
       threads s = [LReturn true] ∧ main_at s = MProcess None ∧
       tp_active s = 0 ∧ tp_head s = [].
Proof.
  assert (∃ s, run (firstn 29 clean_run) (create_threadpool 1 (Statics 0 0))
                 = Some s ∧
               added (hist s) = [7%nat] ∧ executed (hist s) = [7%nat] ∧
               threads s = [LReturn true] ∧ main_at s = MProcess None ∧
               tp_active s = 0)
    as (s & Hrun & Had & Hex & Hth & Hma & Ha).
  { eexists. split; [vm_compute; reflexivity|]. repeat split; reflexivity. }
  exists s. do 6 (split; [assumption|]).
  eapply (inactive_queue_empty 1 (Statics 0 0) (firstn 29 clean_run)).
  - unfold uint_modulus. lia.
  - exact Hrun.
  - vm_compute. reflexivity.
  - exact Ha.
Defined.

(** C5 as stated fails.  With one worker and nothing submitted the
    worker stops the pool, and the task [main] then submits is linked
    into the queue of the stopped pool: [enqueue_task] has no test of
    the flag.  Forbidding the links made while the flag is false is not
    enough for the queue of a stopped pool to be empty: in
    [lost_task_before] task 8 is linked while the flag is true and
    [waiting_threads] is 1, the number of workers, and it is in the
    queue when the worker sets the flag to false. *)
Lemma inactive_queue_may_hold_task :
  ¬ (∀ n g ls s, 0 ≤ n < uint_modulus →
       run ls (create_threadpool n g) = Some s →
       tp_active s = 0 → tp_head s = []) ∧
  ¬ (∀ n g ls s, 0 ≤ n < uint_modulus →
       run ls (create_threadpool n g) = Some s →
       no_add_after_stop ls (create_threadpool n g) = true →
       tp_active s = 0 → tp_head s = []).
Proof.
  assert (Hn : 0 ≤ 1 < uint_modulus) by (unfold uint_modulus; lia).
  split; intros H.
  - assert (∃ s, run (idle_stop ++ submit Main 8%nat None)
                     (create_threadpool 1 (Statics 0 0)) = Some s ∧
                 tp_active s = 0 ∧ tp_head s = [8%nat])
      as (s & Hrun & Ha & Hq).
    { eexists. split; [vm_compute; reflexivity|]. split; reflexivity. }
    specialize (H _ _ _ _ Hn Hrun Ha). congruence.
  - assert (∃ s, run (lost_task_before ++ alone (Worker 0) 4)
                     (create_threadpool 1 (Statics 0 0)) = Some s ∧
                 tp_active s = 0 ∧ tp_head s = [8%nat])
      as (s & Hrun & Ha & Hq).
    { eexists. split; [vm_compute; reflexivity|]. split; reflexivity. }
    assert (Hno : no_add_after_stop (lost_task_before ++ alone (Worker 0) 4)
                    (create_threadpool 1 (Statics 0 0)) = true)
      by (vm_compute; reflexivity).
    specialize (H _ _ _ _ Hn Hrun Hno Ha). congruence.
Qed.

Lemma queue_is_fifo_witness :
  ∃ s, run (lost_task_before ++ lost_task_after)
           (create_threadpool 1 (Statics 0 0)) = Some s ∧
       added (hist s) = [7; 8]%nat ∧ removed (hist s) = [7]%nat ∧
       added (hist s) = removed (hist s) ++ purged (hist s) ++ tp_head s.
Proof.
  eexists. split; [vm_compute; reflexivity|].
  split; [reflexivity|]. split; [reflexivity|].
  eapply (queue_is_fifo 1 (Statics 0 0) (lost_task_before ++ lost_task_after)).
  - unfold uint_modulus. lia.
  - vm_compute. reflexivity.
Defined.

(** ** Who writes the shared fields *)

Lemma step_writer l s s' :
  step l s = Some s' → writes_pool s s' →
  holds s l.1 = true ∨ (l.1 = Main ∧ in_destroy (main_at s) = true).
Proof.
  intros H Hw. unfold writes_pool in Hw.
  step_split H i pc s1 pc' Hat; rewrite Hwho.
  - main_cases H; simpl in *; rewrite ?Heqm; simpl; auto.
    all: by destruct Hw as [|[|]].
  - rewrite holds_worker, Hat.
    worker_cases H; simpl in *; auto.
    all: by destruct Hw as [|[|]].
Qed.

(** C9, as the code has it: a statement of [enqueue_task],
    [dequeue_task] or [thread_loop_function] that changes the queue,
    the flag or the counter is executed by the owner of the mutex.
    Two functions write them without it.  [create_threadpool]
    initialises the three (lines 133, 139, 140: the queue empty, the
    flag 1 and the counter 0, whatever it was) before it has started
    any worker, the mutex being owned by nobody; this is the state
    every execution starts from.  [destroy_threadpool] is the only
    writer in an execution that does not own the mutex: [main] runs it
    once every worker has returned. *)
Theorem pool_written_under_mutex n g ls s l s' :
  0 ≤ n < uint_modulus →
  run ls (create_threadpool n g) = Some s →
  step l s = Some s' → writes_pool s s' →
  (tp_head (create_threadpool n g) = [] ∧
   tp_active (create_threadpool n g) = 1 ∧
   waiting_threads (glob (create_threadpool n g)) = 0 ∧
   tp_mutex (create_threadpool n g) = None ∧
   threads (create_threadpool n g) = []) ∧
  (tp_mutex s = Some l.1 ∨
   (l.1 = Main ∧ in_destroy (main_at s) = true ∧ tp_mutex s = None ∧
    ∀ j pc, threads s !! j = Some pc → has_returned pc = true)).
Proof.
  intros Hn Hrun H Hw. split; [done|].
  destruct (invariant_run _ _ _ _ Hn Hrun) as (Hs & Hx & _).
  destruct (step_writer _ _ _ H Hw) as [Hh|[Hm Hd]].
  - left. by apply Hx.
  - right. split; [done|]. split; [done|]. split.
    + destruct (tp_mutex s) as [who|] eqn:Hmx; [|done].
      apply Hx in Hmx. destruct who as [|j]; simpl in Hmx.
      * by destruct (main_at s).
      * destruct (threads s !! j) as [pc|] eqn:Hj; [|done].
        pose proof (worker_not_joined s j pc Hs Hj) as Hnj.
        destruct pc; simpl in *; try done; rewrite Hnj in Hd; done.
    + intros j pc Hj. destruct (has_returned pc) eqn:Hr; [done|].
      by rewrite (worker_not_joined s j pc Hs Hj Hr) in Hd.
Qed.

Lemma pool_written_under_mutex_witness :
  ∃ s s', run (firstn 4 idle_stop) (create_threadpool 1 (Statics 7 0))
            = Some s ∧
          step (Worker 0, Tau) s = Some s' ∧
          waiting_threads (glob s) = 0 ∧ waiting_threads (glob s') = 1 ∧
          tp_mutex s = Some (Worker 0).
Proof.
  assert (Hn : 0 ≤ 1 < uint_modulus) by (unfold uint_modulus; lia).
  assert (∃ s s', run (firstn 4 idle_stop) (create_threadpool 1 (Statics 7 0))
                    = Some s ∧
                  step (Worker 0, Tau) s = Some s' ∧
                  waiting_threads (glob s) = 0 ∧
                  waiting_threads (glob s') = 1)
    as (s & s' & Hrun & Hstep & Hw & Hw').
  { eexists. eexists. split; [vm_compute; reflexivity|].
    split; [vm_compute; reflexivity|]. split; reflexivity. }
  exists s, s'. do 4 (split; [assumption|]).
  destruct (pool_written_under_mutex 1 (Statics 7 0) (firstn 4 idle_stop)
              s (Worker 0, Tau) s' Hn Hrun Hstep)
    as [_ [Hm|[Hm _]]]; [|exact Hm|discriminate Hm].
  right. right. rewrite Hw, Hw'. discriminate.
Defined.

(** C9 as stated fails: line 162 of [destroy_threadpool] resets
    [waiting_threads] from 1 to 0 while nobody owns the mutex (which
    line 160 has destroyed). *)
Lemma destroy_writes_without_mutex :
  ¬ (∀ n g ls s l s', 0 ≤ n < uint_modulus →
       run ls (create_threadpool n g) = Some s →
       step l s = Some s' →
       writes_pool s s' ∨ start (glob s') ≠ start (glob s) →
       tp_mutex s = Some l.1).
Proof.
  intros H.
  assert (Hn : 0 ≤ 1 < uint_modulus) by (unfold uint_modulus; lia).
  assert (∃ s s', run (firstn 23 late_submission)
                      (create_threadpool 1 (Statics 0 0)) = Some s ∧
                  step (Main, Tau) s = Some s' ∧
                  main_at s = MDestroy DsWaiting ∧ tp_mutex s = None ∧
                  waiting_threads (glob s) = 1 ∧
                  waiting_threads (glob s') = 0)
    as (s & s' & Hrun & Hstep & _ & Hm & Hw & Hw').
  { eexists. eexists. split; [vm_compute; reflexivity|].
    split; [vm_compute; reflexivity|]. repeat split; reflexivity. }
  specialize (H _ _ _ _ _ _ Hn Hrun Hstep). rewrite Hm in H.
  assert (E : None = Some (Main, Tau).1); [|discriminate E].
  apply H. left. right. right. rewrite Hw, Hw'. discriminate.
Qed.

(** Line 50 of [enqueue_task] writes [start] before the mutex is
    taken. *)
Lemma start_written_without_mutex :
  ∃ s s', run [(Main, Tau); (Main, Tau); (Main, Submit 8%nat)]
            (create_threadpool 1 (Statics 0 0)) = Some s ∧
          step (Main, Tau) s = Some s' ∧
          start (glob s) = 0 ∧ start (glob s') = 1 ∧ tp_mutex s = None.
Proof. eexists. eexists. repeat split; vm_compute; reflexivity. Qed.

(** ** One thread running alone *)

Local Arguments alone : simpl never.
Local Arguments run : simpl never.
Local Arguments wrap : simpl never.

Lemma run_alone_S who k s :
  run (alone who (S k)) s = s' ← step (who, Tau) s; run (alone who k) s'.
Proof. reflexivity. Qed.

Lemma run_alone_0 who s : run (alone who 0) s = Some s.
Proof. reflexivity. Qed.

Lemma state_ext s s' :
  waiting_threads (glob s) = waiting_threads (glob s') →
  start (glob s) = start (glob s') →
  tp_head s = tp_head s' → tp_mutex s = tp_mutex s' →
  tp_active s = tp_active s' → tp_num_threads s = tp_num_threads s' →
  threads s = threads s' → main_at s = main_at s' → hist s = hist s' →
  s = s'.
Proof.
  destruct s as [[w st] ? ? ? ? ? ? ?], s' as [[w' st'] ? ? ? ? ? ? ?].
  simpl. by intros -> -> -> -> -> -> -> -> ->.
Qed.

(** Two states are equal when their fields are. *)
Ltac state_eq :=
  f_equal; apply state_ext;
  cbn [glob tp_head tp_mutex tp_active tp_num_threads threads main_at hist
       waiting_threads start set_waiting set_start set_head set_mutex
       set_active set_threads set_main set_hist log_added log_removed
       log_executed log_purged pthread_mutex_unlock pthread_cond_broadcast];
  try reflexivity.

Lemma lock_free me s :
  tp_mutex s = None → pthread_mutex_lock me s = Some (set_mutex (Some me) s).
Proof. intros H. unfold pthread_mutex_lock. by rewrite H. Qed.

(** The next statement of worker [i], which stood at the program point
    given by [H] when the run began. *)
Ltac worker_step H :=
  rewrite run_alone_S;
  erewrite worker_does;
  [ | first [ exact H | eapply lookup_insert_here; exact H ]
    | simpl; rewrite ?lock_free by (simpl; assumption); simpl;
      try reflexivity ];
  simpl; rewrite ?insert_twice.

Lemma dequeue_task_begins s i :
  threads s !! i = Some (LDequeue DqLock) → tp_mutex s = None →
  run (alone (Worker i) 2) s =
    Some (set_threads (<[i := LDequeue DqTest]> (threads s))
            (set_waiting (wrap (waiting_threads (glob s) + 1))
               (set_mutex (Some (Worker i)) s))).
Proof.
  intros Hi Hm. worker_step Hi. worker_step Hi. by rewrite run_alone_0.
Qed.

Lemma dequeue_task_fails s i :
  threads s !! i = Some (LDequeue DqLock) → tp_mutex s = None →
  negb (queue_is_empty s) && (tp_active s =? 1) = false →
  run (alone (Worker i) 4) s =
    Some (set_threads (<[i := LTask None]> (threads s))
            (set_waiting (wrap (waiting_threads (glob s) + 1)) s)).
Proof.
  intros Hi Hm Hq. worker_step Hi. worker_step Hi.
  rewrite run_alone_S. erewrite worker_does;
    [|eapply lookup_insert_here; exact Hi|].
  2:{ simpl. unfold queue_is_empty in *. simpl. by rewrite Hq. }
  simpl. rewrite insert_twice. worker_step Hi. rewrite run_alone_0.
  state_eq. by rewrite Hm.
Qed.

Lemma dequeue_task_succeeds s i t q :
  threads s !! i = Some (LDequeue DqLock) → tp_mutex s = None →
  0 ≤ waiting_threads (glob s) < uint_modulus →
  tp_head s = t :: q → tp_active s = 1 →
  run (alone (Worker i) 6) s =
    Some (set_threads (<[i := LTask (Some t)]> (threads s))
            (log_removed t (set_head q s))).
Proof.
  intros Hi Hm Hw Hq Ha. worker_step Hi. worker_step Hi.
  rewrite run_alone_S. erewrite worker_does;
    [|eapply lookup_insert_here; exact Hi|].
  2:{ simpl. unfold queue_is_empty. simpl. by rewrite Hq, Ha. }
  simpl. rewrite insert_twice.
  rewrite run_alone_S. erewrite worker_does;
    [|eapply lookup_insert_here; exact Hi|].
  2:{ simpl. by rewrite Hq. }
  simpl. rewrite insert_twice. worker_step Hi. worker_step Hi.
  rewrite run_alone_0. state_eq; [by apply wrap_inc_dec|by rewrite Hm].
Qed.

(** C3: a call of [dequeue_task] by worker [i], on any state of the
    pool in which the mutex is free.  After the first two statements
    the counter is one more than it was.  If the queue is [t :: q] and
    the flag is true, the call returns [t] (the worker stands at line
    95 with [t]), the queue is [q] and the counter is what it was before
    the call; otherwise the call returns NULL, the queue is unchanged
    and the counter stays one more than it was. *)
Theorem dequeue_task_spec s i :
  threads s !! i = Some (LDequeue DqLock) → tp_mutex s = None →
  0 ≤ waiting_threads (glob s) < uint_modulus →
  run (alone (Worker i) 2) s =
    Some (set_threads (<[i := LDequeue DqTest]> (threads s))
            (set_waiting (wrap (waiting_threads (glob s) + 1))
               (set_mutex (Some (Worker i)) s))) ∧
  match tp_head s with
  | t :: q =>
      if tp_active s =? 1 then
        run (alone (Worker i) 6) s =
          Some (set_threads (<[i := LTask (Some t)]> (threads s))
                  (log_removed t (set_head q s)))
      else
        run (alone (Worker i) 4) s =
          Some (set_threads (<[i := LTask None]> (threads s))
                  (set_waiting (wrap (waiting_threads (glob s) + 1)) s))
  | [] =>
      run (alone (Worker i) 4) s =
        Some (set_threads (<[i := LTask None]> (threads s))
                (set_waiting (wrap (waiting_threads (glob s) + 1)) s))
  end.
Proof.
  intros Hi Hm Hw. split; [by apply dequeue_task_begins|].
  destruct (tp_head s) as [|t q] eqn:Hq.
  - apply dequeue_task_fails; [done..|]. unfold queue_is_empty. by rewrite Hq.
  - destruct (tp_active s =? 1) eqn:Ha.
    + apply dequeue_task_succeeds; [done..|lia].
    + apply dequeue_task_fails; [done..|]. by rewrite Ha, andb_false_r.
Qed.

Lemma dequeue_task_spec_witness :
  run (alone (Worker 0) 6)
      (State (Statics 0 1) [7%nat] None 1 1 [LDequeue DqLock] (MProcess None)
             (History [7%nat] [] [] []))
  = Some (State (Statics 0 1) [] None 1 1 [LTask (Some 7%nat)] (MProcess None)
                (History [7%nat] [7%nat] [] [])).
Proof.
  assert (Hw : 0 ≤ 0 < uint_modulus) by (unfold uint_modulus; lia).
  exact (proj2 (dequeue_task_spec
    (State (Statics 0 1) [7%nat] None 1 1 [LDequeue DqLock] (MProcess None)
           (History [7%nat] [] [] [])) 0 eq_refl eq_refl Hw)).
Defined.








(** ** The two defects of the worker loop *)

(** C1 fails on the code: task 8 is linked while the flag is true and
    before the only worker executes the test of line 98; the worker
    then stops the pool without looking at the queue, and task 8 is
    never run: [destroy_threadpool] purges it. *)
Theorem task_lost_before_stop :
  ∃ s1 s2,
    run lost_task_before (create_threadpool 1 (Statics 0 0)) = Some s1 ∧
    tp_head s1 = [8%nat] ∧ tp_active s1 = 1 ∧ threads s1 = [LTask None] ∧
    run lost_task_after s1 = Some s2 ∧
    threads s2 = [LReturn true] ∧ main_at s2 = MExit ∧
    added (hist s2) = [7; 8]%nat ∧ executed (hist s2) = [7%nat] ∧
    purged (hist s2) = [8%nat].
Proof.
  eexists. eexists. split; [vm_compute; reflexivity|].
  do 3 (split; [reflexivity|]).
  split; [vm_compute; reflexivity|].
  repeat split; reflexivity.
Qed.

(** C4 fails on the code: worker 1, woken by the signal of an
    [enqueue_task], returns from [thread_loop_function] in two
    statements, while the flag is true and task 2 is in the queue; it
    has no further statement to execute. *)
Theorem woken_worker_returns :
  ∃ s1 s2,
    run woken_before (create_threadpool 2 (Statics 0 0)) = Some s1 ∧
    threads s1 !! 1%nat = Some LWoken ∧
    run woken_after s1 = Some s2 ∧
    threads s2 !! 1%nat = Some (LReturn true) ∧
    tp_active s2 = 1 ∧ tp_head s2 = [2%nat] ∧
    ∀ c, step (Worker 1, c) s2 = None.
Proof.
  eexists. eexists. split; [vm_compute; reflexivity|].
  split; [reflexivity|]. split; [vm_compute; reflexivity|].
  do 3 (split; [reflexivity|]). intros c. by destruct c.
Qed.

(** Whatever the state, a woken worker takes the mutex, releases it and
    returns: it never calls [dequeue_task] again. *)
Lemma woken_worker_breaks s i :
  threads s !! i = Some LWoken → tp_mutex s = None →
  run (alone (Worker i) 2) s =
    Some (set_threads (<[i := LReturn true]> (threads s)) s).
Proof.
  intros Hi Hm. worker_step Hi. worker_step Hi. rewrite run_alone_0.
  state_eq. by rewrite Hm.
Qed.

(** ** The file-scope variables across pools *)

Lemma step_start l s s' :
  step l s = Some s' →
  start (glob s') = if calls_enqueue l s then 1 else start (glob s).
Proof.
  intros H. unfold calls_enqueue.
  step_split H i pc s1 pc' Hat; rewrite Hwho.
  - main_cases H; simpl in *; done.
  - rewrite Hat. worker_cases H; simpl in *; done.
Qed.






(** ** Further properties of the pool *)

(** X1: two threads are never inside critical sections of the pool at
    the same time, and the thread that is inside one owns the mutex. *)
Theorem mutual_exclusion n g ls s who1 who2 :
  run ls (create_threadpool n g) = Some s →
  holds s who1 = true → holds s who2 = true →
  who1 = who2 ∧ tp_mutex s = Some who1.
Proof.
  intros Hrun H1 H2.
  assert (Hx : exclusion s) by (apply (exclusion_reachable n g); by exists ls).
  apply Hx in H1. apply Hx in H2. split; [congruence|done].
Qed.

Lemma mutual_exclusion_witness :
  ∃ s, run (firstn 4 idle_stop) (create_threadpool 1 (Statics 0 0)) = Some s ∧
       holds s (Worker 0) = true ∧ tp_mutex s = Some (Worker 0).
Proof.
  assert (∃ s, run (firstn 4 idle_stop) (create_threadpool 1 (Statics 0 0))
               = Some s ∧ holds s (Worker 0) = true) as (s & Hrun & Hh).
  { eexists. split; [vm_compute; reflexivity|]. reflexivity. }
  exists s. split; [exact Hrun|]. split; [exact Hh|].
  exact (proj2 (mutual_exclusion 1 (Statics 0 0) _ s (Worker 0) (Worker 0)
                  Hrun Hh Hh)).
Defined.

(** X2: [create_threadpool] starts exactly [num_threads] workers: while
    its loop is at index [k] there are [k] of them, and from its return
    on there are [num_threads]. *)
Theorem create_threadpool_spawns n g ls s :
  0 ≤ n < uint_modulus →
  run ls (create_threadpool n g) = Some s →
  match main_at s with
  | MCreate k => length (threads s) = k ∧ Z.of_nat k ≤ n
  | _ => Z.of_nat (length (threads s)) = n
  end.
Proof.
  intros Hn Hrun. pose proof (num_threads_run _ _ _ _ Hrun) as Hnt.
  destruct (invariant_run _ _ _ _ Hn Hrun) as ([_ Hs] & _).
  rewrite Hnt in Hs. destruct (main_at s); tauto.
Qed.

Lemma create_threadpool_spawns_witness :
  ∃ s, run woken_before (create_threadpool 2 (Statics 0 0)) = Some s ∧
       Z.of_nat (length (threads s)) = 2.
Proof.
  assert (Hn : 0 ≤ 2 < uint_modulus) by (unfold uint_modulus; lia).
  assert (∃ s, run woken_before (create_threadpool 2 (Statics 0 0)) = Some s ∧
               main_at s = MProcess None) as (s & Hrun & Hm).
  { eexists. split; [vm_compute; reflexivity|]. reflexivity. }
  exists s. split; [exact Hrun|].
  pose proof (create_threadpool_spawns 2 (Statics 0 0) _ s Hn Hrun) as H.
  rewrite Hm in H. exact H.
Defined.

Lemma destroy_after_join s :
  shape s → exclusion s → in_destroy (main_at s) = true →
  tp_mutex s = None ∧
  ∀ j pc, threads s !! j = Some pc → has_returned pc = true.
Proof.
  intros Hs Hx Hd.
  assert (Hall : ∀ j pc, threads s !! j = Some pc → has_returned pc = true).
  { intros j pc Hj. destruct (has_returned pc) eqn:Hr; [done|].
    by rewrite (worker_not_joined s j pc Hs Hj Hr) in Hd. }
  split; [|done].
  destruct (tp_mutex s) as [who|] eqn:Hmx; [|done].
  apply Hx in Hmx. destruct who as [|j]; simpl in Hmx.
  - by destruct (main_at s).
  - destruct (threads s !! j) as [pc|] eqn:Hj; [|done].
    specialize (Hall j pc Hj). by destruct pc.
Qed.

(** X3: [wait_for_completion] returns only when every worker has
    returned from [thread_loop_function]: while [main] is in
    [destroy_threadpool] or past it, all [num_threads] workers have
    returned and nobody owns the mutex. *)
Theorem wait_for_completion_joins_all n g ls s :
  0 ≤ n < uint_modulus →
  run ls (create_threadpool n g) = Some s →
  in_destroy (main_at s) = true →
  Z.of_nat (length (threads s)) = n ∧ tp_mutex s = None ∧
  ∀ j pc, threads s !! j = Some pc → has_returned pc = true.
Proof.
  intros Hn Hrun Hd.
  destruct (invariant_run _ _ _ _ Hn Hrun) as (Hs & Hx & _).
  pose proof (num_threads_run _ _ _ _ Hrun) as Hnt.
  split; [|by apply destroy_after_join].
  destruct Hs as [_ Hs]. rewrite Hnt in Hs.
  destruct (main_at s); try done; tauto.
Qed.

Lemma wait_for_completion_joins_all_witness :
  ∃ s, run late_submission (create_threadpool 1 (Statics 0 0)) = Some s ∧
       Z.of_nat (length (threads s)) = 1 ∧ tp_mutex s = None.
Proof.
  assert (Hn : 0 ≤ 1 < uint_modulus) by (unfold uint_modulus; lia).
  assert (∃ s, run late_submission (create_threadpool 1 (Statics 0 0))
               = Some s ∧ in_destroy (main_at s) = true) as (s & Hrun & Hd).
  { eexists. split; [vm_compute; reflexivity|]. reflexivity. }
  exists s. split; [exact Hrun|].
  destruct (wait_for_completion_joins_all 1 (Statics 0 0) _ s Hn Hrun Hd)
    as (Hlen & Hm & _).
  split; [exact Hlen|exact Hm].
Defined.

Lemma exit_queue_empty_step l s s' :
  shape s → (main_at s = MExit → tp_head s = []) →
  step l s = Some s' → main_at s' = MExit → tp_head s' = [].
Proof.
  intros Hs IH H Hm. step_split H i pc s1 pc' Hat; simpl in *.
  - main_cases H; simpl in *; try done.
  - apply worker_frame in H as (Hr & _ & E & _). rewrite E in Hm.
    pose proof (worker_not_joined _ _ _ Hs Hat Hr) as Hnd.
    by rewrite Hm in Hnd.
Qed.

Lemma exit_queue_empty n g ls s :
  0 ≤ n < uint_modulus →
  run ls (create_threadpool n g) = Some s →
  main_at s = MExit → tp_head s = [].
Proof.
  intros Hn Hrun.
  cut (shape s ∧ (main_at s = MExit → tp_head s = [])); [tauto|].
  eapply (run_invariant (λ s, shape s ∧ (main_at s = MExit → tp_head s = [])));
    [| |done].
  - intros l s0 s1 [Hs IH] H.
    split; [by eapply shape_step|by eapply exit_queue_empty_step].
  - split; [by apply shape_create|done].
Qed.

(** X4: when [destroy_threadpool] has returned, the queue is empty, the
    flag is false, [waiting_threads] is 0, and every task ever linked
    has been unlinked exactly once, by [dequeue_task] or by the purge. *)
Theorem destroy_threadpool_leaves_nothing n g ls s :
  0 ≤ n < uint_modulus →
  run ls (create_threadpool n g) = Some s →
  main_at s = MExit →
  tp_head s = [] ∧ tp_active s = 0 ∧ waiting_threads (glob s) = 0 ∧
  added (hist s) = removed (hist s) ++ purged (hist s).
Proof.
  intros Hn Hrun Hm.
  pose proof (exit_queue_empty _ _ _ _ Hn Hrun Hm) as Hq.
  destruct (invariant_run _ _ _ _ Hn Hrun) as (_ & _ & Hc & _).
  destruct (fifo_run _ _ _ _ Hn Hrun) as [Hf _].
  unfold counted in Hc. rewrite Hm in Hc. rewrite Hq, app_nil_r in Hf.
  repeat split; try done. by eapply exit_inactive.
Qed.

Lemma destroy_threadpool_leaves_nothing_witness :
  ∃ s, run (lost_task_before ++ lost_task_after)
           (create_threadpool 1 (Statics 0 0)) = Some s ∧
       purged (hist s) = [8%nat] ∧ tp_head s = [] ∧
       added (hist s) = removed (hist s) ++ purged (hist s).
Proof.
  assert (Hn : 0 ≤ 1 < uint_modulus) by (unfold uint_modulus; lia).
  assert (∃ s, run (lost_task_before ++ lost_task_after)
                   (create_threadpool 1 (Statics 0 0)) = Some s ∧
               main_at s = MExit ∧ purged (hist s) = [8%nat])
    as (s & Hrun & Hm & Hp).
  { eexists. split; [vm_compute; reflexivity|]. split; reflexivity. }
  exists s. split; [exact Hrun|]. split; [exact Hp|].
  destruct (destroy_threadpool_leaves_nothing 1 (Statics 0 0) _ s Hn Hrun Hm)
    as (Hq & _ & _ & Hf).
  split; [exact Hq|exact Hf].
Defined.

(** X5: the pool is never stopped while a task is running or can still
    be run: when the flag is false, every one of the [num_threads]
    workers has had NULL from [dequeue_task]; none is inside a task
    action, holds a task or is about to try [dequeue_task]. *)
Theorem stopped_only_when_all_idle n g ls s :
  0 ≤ n < uint_modulus →
  run ls (create_threadpool n g) = Some s →
  tp_active s = 0 →
  Z.of_nat (length (threads s)) = n ∧
  ∀ j pc, threads s !! j = Some pc →
    gave_up pc = true ∧ held_task pc = [] ∧
    (∀ t call, pc ≠ LAction t call) ∧ pc ≠ LWhile ∧ pc ≠ LDequeue DqLock.
Proof.
  intros Hn Hrun Ha.
  destruct (invariant_run _ _ _ _ Hn Hrun) as (_ & _ & _ & _ & Hst & _).
  pose proof (num_threads_run _ _ _ _ Hrun) as Hnt.
  destruct Hst as [Hlen Hq]; [left; lia|].
  split; [lia|]. intros j pc Hj. specialize (Hq j pc Hj).
  split; [done|].
  destruct pc as [|[| | | | |[]]|[]| | | | | | | | | | |[]]; try done.
Qed.

Lemma stopped_only_when_all_idle_witness :
  ∃ s, run idle_stop (create_threadpool 1 (Statics 0 0)) = Some s ∧
       tp_active s = 0 ∧ Z.of_nat (length (threads s)) = 1.
Proof.
  assert (Hn : 0 ≤ 1 < uint_modulus) by (unfold uint_modulus; lia).
  assert (∃ s, run idle_stop (create_threadpool 1 (Statics 0 0)) = Some s ∧
               tp_active s = 0) as (s & Hrun & Ha).
  { eexists. split; [vm_compute; reflexivity|]. reflexivity. }
  exists s. split; [exact Hrun|]. split; [exact Ha|].
  exact (proj1 (stopped_only_when_all_idle 1 (Statics 0 0) _ s Hn Hrun Ha)).
Defined.

(** X6: the loop condition of line 92 never fails: whenever a worker
    is about to test it the flag is 1, so no worker leaves the loop
    through its condition; every worker that returns has left through
    the break of line 106. *)
Theorem loop_condition_never_fails n g ls s j pc :
  0 ≤ n < uint_modulus →
  run ls (create_threadpool n g) = Some s →
  threads s !! j = Some pc →
  (pc = LWhile → tp_active s = 1) ∧ pc ≠ LReturn false.
Proof.
  intros Hn Hrun Hj.
  destruct (invariant_run _ _ _ _ Hn Hrun) as (_ & _ & _ & Hbin & Hst & Hb).
  split.
  - intros ->. destruct Hbin as [Ha|Ha]; [|done].
    destruct Hst as [_ Hq]; [left; lia|]. by specialize (Hq j LWhile Hj).
  - intros ->. by apply (Hb j).
Qed.

Lemma loop_condition_never_fails_witness :
  ∃ s, run (firstn 2 idle_stop) (create_threadpool 1 (Statics 0 0)) = Some s ∧
       threads s !! 0%nat = Some LWhile ∧ tp_active s = 1.
Proof.
  assert (Hn : 0 ≤ 1 < uint_modulus) by (unfold uint_modulus; lia).
  assert (∃ s, run (firstn 2 idle_stop) (create_threadpool 1 (Statics 0 0))
               = Some s ∧ threads s !! 0%nat = Some LWhile) as (s & Hrun & Hj).
  { eexists. split; [vm_compute; reflexivity|]. reflexivity. }
  exists s. split; [exact Hrun|]. split; [exact Hj|].
  exact (proj1 (loop_condition_never_fails 1 (Statics 0 0) _ s 0%nat LWhile
                  Hn Hrun Hj) eq_refl).
Defined.

Lemma counts_when_free pc :
  loop_holds pc = false → counts pc = if gave_up pc then 1 else 0.
Proof. by destruct pc as [|[| | | | |[]]|[]| | | | | | | | | | |[]]. Qed.

Lemma count_waiting_gave_up ws :
  (∀ j pc, ws !! j = Some pc → loop_holds pc = false) →
  count_waiting ws = count_gave_up ws.
Proof.
  unfold count_gave_up. induction ws as [|pc ws IH]; intros H; [done|].
  simpl count_waiting. rewrite filter_cons.
  rewrite (counts_when_free pc (H 0%nat pc eq_refl)).
  rewrite IH by (intros j q Hj; apply (H (S j) q Hj)).
  destruct (gave_up pc); simpl; lia.
Qed.

(** X7: whenever nobody owns the mutex (and until [destroy_threadpool]
    runs), [waiting_threads] is exactly the number of workers whose
    [dequeue_task] has returned NULL: each such worker is counted once
    and for good, and no other worker is counted. *)
Theorem waiting_threads_counts_idle_workers n g ls s :
  0 ≤ n < uint_modulus →
  run ls (create_threadpool n g) = Some s →
  tp_mutex s = None → in_destroy (main_at s) = false →
  waiting_threads (glob s) = count_gave_up (threads s).
Proof.
  intros Hn Hrun Hm Hd.
  destruct (invariant_run _ _ _ _ Hn Hrun) as (_ & Hx & Hc & _).
  unfold counted in Hc.
  assert (Hcount : waiting_threads (glob s) = count_waiting (threads s)).
  { destruct (main_at s) as [| | |[]|]; done. }
  rewrite Hcount. apply count_waiting_gave_up. intros j pc Hj.
  destruct (loop_holds pc) eqn:Hh; [|done].
  assert (Hmx : tp_mutex s = Some (Worker j)).
  { apply Hx. rewrite holds_worker. by rewrite Hj. }
  congruence.
Qed.

Lemma waiting_threads_counts_idle_workers_witness :
  ∃ s, run woken_before (create_threadpool 2 (Statics 0 0)) = Some s ∧
       count_gave_up (threads s) = 1 ∧ waiting_threads (glob s) = 1.
Proof.
  assert (Hn : 0 ≤ 2 < uint_modulus) by (unfold uint_modulus; lia).
  assert (∃ s, run woken_before (create_threadpool 2 (Statics 0 0)) = Some s ∧
               tp_mutex s = None ∧ in_destroy (main_at s) = false ∧
               count_gave_up (threads s) = 1) as (s & Hrun & Hm & Hd & Hc).
  { eexists. split; [vm_compute; reflexivity|]. repeat split; reflexivity. }
  exists s. split; [exact Hrun|]. split; [exact Hc|].
  rewrite <- Hc.
  exact (waiting_threads_counts_idle_workers 2 (Statics 0 0) _ s
           Hn Hrun Hm Hd).
Defined.

Lemma pop_nonempty_step l s s' :
  shape s → exclusion s →
  (∀ j, threads s !! j = Some (LDequeue DqPop) → tp_head s ≠ []) →
  step l s = Some s' →
  ∀ j, threads s' !! j = Some (LDequeue DqPop) → tp_head s' ≠ [].
Proof.
  intros Hs Hx IH H j Hj.
  assert (Hcase : (l.1 = Worker j ∧ tp_head s' ≠ []) ∨
                  (l.1 ≠ Worker j ∧ threads s !! j = Some (LDequeue DqPop))).
  { pose proof H as H'. step_split H' i pc s1 pc' Hat; simpl in *.
    - right. rewrite Hwho. split; [done|].
      apply main_spawn in H' as [Hw|[E _]].
      + destruct (Hw j) as [E|[_ E]]; congruence.
      + rewrite E in Hj. apply lookup_app_Some in Hj as [Hj|[_ Hj]]; [done|].
        destruct (j - length (threads s))%nat as [|[|]]; done.
    - apply list_lookup_insert_Some in Hj as [(-> & Hpc & _)|[Hne Hj]].
      + left. split; [done|]. subst pc'. worker_cases H'.
        unfold queue_is_empty in *. by destruct (tp_head s1).
      + right. rewrite Hwho. split; [congruence|].
        apply worker_frame in H' as (_ & _ & _ & _ & Hw).
        destruct (Hw j) as [E|[_ E]]; congruence. }
  destruct Hcase as [[_ ?]|[Hne Hj0]]; [done|].
  destruct (decide (tp_head s' = tp_head s)) as [->|Hch]; [by apply (IH j)|].
  exfalso.
  assert (Hmj : tp_mutex s = Some (Worker j)).
  { apply Hx. rewrite holds_worker. by rewrite Hj0. }
  destruct (step_writer _ _ _ H (or_introl Hch)) as [Hh|[_ Hd]].
  - apply Hx in Hh. congruence.
  - by rewrite (worker_not_joined s j _ Hs Hj0 eq_refl) in Hd.
Qed.

Lemma pop_nonempty n g ls s :
  0 ≤ n < uint_modulus →
  run ls (create_threadpool n g) = Some s →
  ∀ j, threads s !! j = Some (LDequeue DqPop) → tp_head s ≠ [].
Proof.
  intros Hn Hrun.
  cut (invariant s ∧
       ∀ j, threads s !! j = Some (LDequeue DqPop) → tp_head s ≠ []);
    [tauto|].
  eapply (run_invariant (λ s, invariant s ∧
       ∀ j, threads s !! j = Some (LDequeue DqPop) → tp_head s ≠ []));
    [| |done].
  - intros l s0 s1 [Hinv IH] H. split; [by eapply invariant_step|].
    destruct Hinv as (Hs & Hx & _). by eapply pop_nonempty_step.
  - split; [by apply invariant_create|]. intros j Hj. by destruct j.
Qed.

(** X10: [dequeue_task] never unlinks from an empty queue: whenever a
    worker stands at lines 77-78 the queue holds a task, so
    [list_entry(tp->head.next)] is a task and not the list head, and
    the statement can be executed. *)
Theorem dequeue_task_pops_a_task n g ls s j :
  0 ≤ n < uint_modulus →
  run ls (create_threadpool n g) = Some s →
  threads s !! j = Some (LDequeue DqPop) →
  ∃ t q s', tp_head s = t :: q ∧ step (Worker j, Tau) s = Some s' ∧
            tp_head s' = q ∧ threads s' !! j = Some (LDequeue (DqDec t)).
Proof.
  intros Hn Hrun Hj. pose proof (pop_nonempty _ _ _ _ Hn Hrun j Hj) as Hq.
  destruct (tp_head s) as [|t q] eqn:Hh; [done|].
  exists t, q. eexists. split; [done|]. split.
  - eapply worker_does; [done|]. simpl. by rewrite Hh.
  - split; [done|]. simpl. by eapply lookup_insert_here.
Qed.

Lemma dequeue_task_pops_a_task_witness :
  ∃ s t q s', run (firstn 12 lost_task_before)
                  (create_threadpool 1 (Statics 0 0)) = Some s ∧
              tp_head s = t :: q ∧ step (Worker 0, Tau) s = Some s' ∧
              tp_head s' = q.
Proof.
  assert (Hn : 0 ≤ 1 < uint_modulus) by (unfold uint_modulus; lia).
  assert (∃ s, run (firstn 12 lost_task_before)
                   (create_threadpool 1 (Statics 0 0)) = Some s ∧
               threads s !! 0%nat = Some (LDequeue DqPop)) as (s & Hrun & Hj).
  { eexists. split; [vm_compute; reflexivity|]. reflexivity. }
  destruct (dequeue_task_pops_a_task 1 (Statics 0 0) _ s 0%nat Hn Hrun Hj)
    as (t & q & s' & Hq & Hstep & Hq' & _).
  exists s, t, q, s'. split; [exact Hrun|]. split; [exact Hq|].
  split; [exact Hstep|exact Hq'].
Defined.

Lemma worker_past_start i pc c s s1 pc' :
  thread_loop_function i pc c s = Some (s1, pc') →
  loop_past_start pc' = true →
  loop_past_start pc = true ∨ ∃ t t', pc = LAction t (Some (t', EnqStart)).
Proof. intros H. worker_cases H; simpl; eauto. Qed.

Lemma worker_added i pc c s s1 pc' :
  thread_loop_function i pc c s = Some (s1, pc') →
  added (hist s1) = added (hist s) ∨ loop_past_start pc = true.
Proof. intros H. worker_cases H; simpl; eauto. Qed.

Lemma main_past_start_cause pc c s s1 pc' :
  main pc c s = Some (s1, pc') →
  (main_past_start pc' = true →
   main_past_start pc = true ∨ ∃ t, pc = MProcess (Some (t, EnqStart))) ∧
  (added (hist s1) = added (hist s) ∨ main_past_start pc = true).
Proof. intros H. main_cases H; simpl; eauto. Qed.

Lemma submission_begun_cause l s s' :
  step l s = Some s' → calls_enqueue l s = false →
  submission_begun s' → submission_begun s.
Proof.
  intros H Hc Hb. unfold calls_enqueue in Hc.
  step_split H i pc s1 pc' Hat; rewrite Hwho in Hc; simpl in *.
  - pose proof (main_past_start_cause _ _ _ _ _ H) as [Hp Ha].
    pose proof (main_spawn _ _ _ _ _ H) as Hw.
    destruct Hb as [Hb|[Hb|(j & q & Hj & Hq)]]; simpl in *.
    + destruct Ha as [Ha|Ha]; [left; congruence|right; by left].
    + destruct (Hp Hb) as [?|[t Ht]]; [right; by left|].
      by rewrite Ht in Hc.
    + right. right. destruct Hw as [Hw|[E _]].
      * destruct (Hw j) as [E|[_ E]]; [|by simplify_eq/=].
        exists j, q. split; [congruence|done].
      * rewrite E in Hj. apply lookup_app_Some in Hj as [Hj|[_ Hj]]; [eauto|].
        destruct (j - length (threads s))%nat as [|[|]]; by simplify_eq/=.
  - rewrite Hat in Hc.
    pose proof (worker_past_start _ _ _ _ _ _ H) as Hp.
    pose proof (worker_added _ _ _ _ _ _ H) as Ha.
    apply worker_frame in H as (_ & _ & Hm & _ & Hw).
    destruct Hb as [Hb|[Hb|(j & q & Hj & Hq)]]; simpl in *.
    + destruct Ha as [Ha|Ha]; [left; congruence|].
      right. right. eauto.
    + right. left. congruence.
    + right. right.
      apply list_lookup_insert_Some in Hj as [(_ & <- & _)|[_ Hj]].
      * destruct (Hp Hq) as [?|(t & t' & Ht)]; [eauto|].
        by rewrite Ht in Hc.
      * destruct (Hw j) as [E|[_ E]]; [|by simplify_eq/=].
        exists j, q. split; [congruence|done].
Qed.

Lemma start_when_begun n g ls s :
  run ls (create_threadpool n g) = Some s →
  submission_begun s → start (glob s) = 1.
Proof.
  intros Hrun.
  eapply (run_invariant (λ s, submission_begun s → start (glob s) = 1));
    [| |done].
  - intros l s0 s1 IH H Hb. rewrite (step_start _ _ _ H).
    destruct (calls_enqueue l s0) eqn:Hc; [done|].
    apply IH. by eapply submission_begun_cause.
  - intros [Hb|[Hb|(j & q & Hj & _)]]; done.
Qed.

(** X12: [enqueue_task] sets [start] before it links its task: in
    every state in which a task has ever been linked, and in
    particular whenever the queue is non-empty, [start] is 1, whatever
    its value was when the pool was created. *)
Theorem start_set_before_task_linked n g ls s :
  0 ≤ n < uint_modulus →
  run ls (create_threadpool n g) = Some s →
  added (hist s) ≠ [] ∨ tp_head s ≠ [] → start (glob s) = 1.
Proof.
  intros Hn Hrun Hne. eapply start_when_begun; [done|]. left.
  destruct Hne as [?|Hq]; [done|].
  destruct (fifo_run _ _ _ _ Hn Hrun) as [-> _].
  intros E. apply app_eq_nil in E as [_ E]. apply app_eq_nil in E as [_ E].
  done.
Qed.

Lemma start_set_before_task_linked_witness :
  ∃ s, run lost_task_before (create_threadpool 1 (Statics 0 0)) = Some s ∧
       tp_head s = [8%nat] ∧ start (glob s) = 1.
Proof.
  assert (Hn : 0 ≤ 1 < uint_modulus) by (unfold uint_modulus; lia).
  assert (∃ s, run lost_task_before (create_threadpool 1 (Statics 0 0))
               = Some s ∧ tp_head s = [8%nat]) as (s & Hrun & Hq).
  { eexists. split; [vm_compute; reflexivity|]. reflexivity. }
  exists s. split; [exact Hrun|]. split; [exact Hq|].
  apply (start_set_before_task_linked 1 (Statics 0 0) _ s Hn Hrun).
  right. rewrite Hq. discriminate.
Defined.

(** ** Tasks are run at most once *)

Local Arguments held_tasks : simpl never.

Lemma held_tasks_cons pc ws :
  held_tasks (pc :: ws) = held_task pc ++ held_tasks ws.
Proof. reflexivity. Qed.

Lemma held_tasks_app ws1 ws2 :
  held_tasks (ws1 ++ ws2) = held_tasks ws1 ++ held_tasks ws2.
Proof.
  induction ws1 as [|pc ws1 IH]; [done|].
  simpl app. rewrite !held_tasks_cons, IH. by rewrite app_assoc.
Qed.

Lemma held_tasks_woken ws ws' :
  woken_only ws ws' → held_tasks ws' = held_tasks ws.
Proof.
  intros Hw. pose proof (woken_only_length _ _ Hw) as Hlen.
  revert ws' Hw Hlen. induction ws as [|pc ws IH]; intros [|pc' ws'] Hw Hlen;
    simplify_eq/=; [done|].
  rewrite !held_tasks_cons. rewrite (IH ws'); [|intros j; apply (Hw (S j))|done].
  f_equal. destruct (Hw 0%nat) as [E|[E1 E2]]; by simplify_eq/=.
Qed.

Lemma held_tasks_insert ws i pc pc' :
  ws !! i = Some pc →
  ∃ rest, held_tasks ws ≡ₚ held_task pc ++ rest ∧
          held_tasks (<[i := pc']> ws) ≡ₚ held_task pc' ++ rest.
Proof.
  revert i. induction ws as [|q ws IH]; intros [|i] Hi; simplify_eq/=.
  - exists (held_tasks ws). by rewrite !held_tasks_cons.
  - destruct (IH i Hi) as (rest & H1 & H2).
    exists (held_task q ++ rest). rewrite !held_tasks_cons, H1, H2.
    split; by rewrite !app_assoc, (Permutation_app_comm (held_task q)).
Qed.

Lemma worker_held i pc c s s1 pc' :
  thread_loop_function i pc c s = Some (s1, pc') →
  (removed (hist s1) = removed (hist s) ∧
   executed (hist s1) = executed (hist s) ∧ held_task pc' = held_task pc) ∨
  (∃ t, removed (hist s1) = removed (hist s) ++ [t] ∧
        executed (hist s1) = executed (hist s) ∧
        held_task pc = [] ∧ held_task pc' = [t]) ∨
  (∃ t, removed (hist s1) = removed (hist s) ∧
        executed (hist s1) = executed (hist s) ++ [t] ∧
        held_task pc = [t] ∧ held_task pc' = []).
Proof.
  intros H. worker_cases H; simpl; eauto 10.
Qed.

Lemma main_held pc c s s1 pc' :
  main pc c s = Some (s1, pc') →
  removed (hist s1) = removed (hist s) ∧
  executed (hist s1) = executed (hist s).
Proof. intros H. main_cases H; done. Qed.

Lemma dequeued_step l s s' :
  removed (hist s) ≡ₚ executed (hist s) ++ held_tasks (threads s) →
  step l s = Some s' →
  removed (hist s') ≡ₚ executed (hist s') ++ held_tasks (threads s').
Proof.
  intros IH H. step_split H i pc s1 pc' Hat; simpl.
  - destruct (main_held _ _ _ _ _ H) as [-> ->].
    apply main_spawn in H as [Hw|[-> _]].
    + by rewrite (held_tasks_woken _ _ Hw).
    + rewrite held_tasks_app. simpl. by rewrite app_nil_r.
  - pose proof (worker_held _ _ _ _ _ _ H) as Hh.
    apply worker_frame in H as (_ & Hbl & _ & _ & Hw).
    pose proof (woken_only_lookup _ _ _ _ Hw Hat Hbl) as Hpc.
    destruct (held_tasks_insert _ _ _ pc' Hpc) as (rest & H1 & H2).
    rewrite (held_tasks_woken _ _ Hw) in H1. rewrite H1 in IH. rewrite H2.
    destruct Hh as [(-> & -> & ->)|[(t & -> & -> & E & ->)|(t & -> & -> & E & ->)]].
    + done.
    + rewrite E in IH. simpl in *. rewrite IH, <- app_assoc.
      f_equiv. symmetry. apply Permutation_cons_append.
    + rewrite E in IH. simpl in *. rewrite IH.
      by rewrite <- app_assoc.
Qed.

Lemma dequeued_run n g ls s :
  run ls (create_threadpool n g) = Some s →
  removed (hist s) ≡ₚ executed (hist s) ++ held_tasks (threads s).
Proof.
  intros Hrun.
  eapply (run_invariant (λ s, removed (hist s) ≡ₚ
            executed (hist s) ++ held_tasks (threads s))); [| |done].
  - intros l s0 s1. apply dequeued_step.
  - done.
Qed.

(** X8: a task is run only after [dequeue_task] has returned it, and
    once per time it was returned: the tasks unlinked by
    [dequeue_task] are those whose action has been called together with
    those a worker still holds.  So when no task is submitted twice, no
    action is called twice, and no task that was run is purged:
    [destroy_task] (line 110 after the action, line 166 in the purge)
    is never called twice on a task. *)
Theorem no_task_runs_twice n g ls s :
  0 ≤ n < uint_modulus →
  run ls (create_threadpool n g) = Some s →
  removed (hist s) ≡ₚ executed (hist s) ++ held_tasks (threads s) ∧
  (∀ t, t ∈ executed (hist s) → t ∈ added (hist s)) ∧
  (NoDup (added (hist s)) → NoDup (executed (hist s) ++ purged (hist s))).
Proof.
  intros Hn Hrun. pose proof (dequeued_run _ _ _ _ Hrun) as Hd.
  destruct (fifo_run _ _ _ _ Hn Hrun) as [Hf _].
  split; [done|]. split.
  - intros t Ht. rewrite Hf, Hd, !elem_of_app. auto.
  - intros Hnd. rewrite Hf, Hd in Hnd.
    rewrite !NoDup_app in Hnd. rewrite NoDup_app.
    destruct Hnd as ((He & _ & _) & Hdis & (Hp & _ & _)).
    split; [done|]. split; [|done].
    intros t Ht Hpt. apply (Hdis t); rewrite !elem_of_app; auto.
Qed.

Lemma no_task_runs_twice_witness :
  ∃ s, run (lost_task_before ++ lost_task_after)
           (create_threadpool 1 (Statics 0 0)) = Some s ∧
       executed (hist s) = [7%nat] ∧ purged (hist s) = [8%nat] ∧
       NoDup (executed (hist s) ++ purged (hist s)).
Proof.
  assert (Hn : 0 ≤ 1 < uint_modulus) by (unfold uint_modulus; lia).
  assert (∃ s, run (lost_task_before ++ lost_task_after)
                   (create_threadpool 1 (Statics 0 0)) = Some s ∧
               executed (hist s) = [7%nat] ∧ purged (hist s) = [8%nat] ∧
               added (hist s) = [7; 8]%nat) as (s & Hrun & He & Hp & Ha).
  { eexists. split; [vm_compute; reflexivity|]. repeat split; reflexivity. }
  exists s. split; [exact Hrun|]. split; [exact He|]. split; [exact Hp|].
  apply (no_task_runs_twice 1 (Statics 0 0) _ s Hn Hrun).
  rewrite Ha. apply NoDup_cons. split.
  - intros Hin. apply list_elem_of_singleton in Hin. discriminate Hin.
  - apply NoDup_singleton.
Defined.

(** ** Executions without late submissions *)

Lemma held_tasks_none ws :
  (∀ j pc, ws !! j = Some pc → held_task pc = []) → held_tasks ws = [].
Proof.
  induction ws as [|pc ws IH]; intros H; [done|].
  rewrite held_tasks_cons, (H 0%nat pc eq_refl), IH; [done|].
  intros j q Hj. apply (H (S j) q Hj).
Qed.

Lemma no_purge_step l s s' :
  invariant s → (quiescent s → tp_head s = []) →
  purged (hist s) = [] → step l s = Some s' → purged (hist s') = [].
Proof.
  intros (Hs & _ & _ & Hst) He Hp H.
  destruct (step_queue_change _ _ _ H) as
    [Hq Hh|t Hq Hh|t Hq Hh _ _|t Hq Hh Hin].
  - destruct Hh as [->|[t ->]]; done.
  - by rewrite Hh.
  - by rewrite Hh.
  - rewrite He in Hq; [done|]. by apply destroy_quiescent.
Qed.

Lemma no_late_add_run n g ls s :
  0 ≤ n < uint_modulus →
  run ls (create_threadpool n g) = Some s →
  no_late_add ls (create_threadpool n g) = true →
  invariant s ∧ (quiescent s → tp_head s = []) ∧ purged (hist s) = [].
Proof.
  intros Hn.
  assert (Hgen : ∀ ls s0,
            invariant s0 ∧ (quiescent s0 → tp_head s0 = []) ∧
            purged (hist s0) = [] →
            run ls s0 = Some s → no_late_add ls s0 = true →
            invariant s ∧ (quiescent s → tp_head s = []) ∧
            purged (hist s) = []).
  { clear ls. intros ls.
    induction ls as [|l ls IH]; intros s0 (Hinv & H0 & Hp) Hrun Hq.
    - change (Some s0 = Some s) in Hrun. by simplify_eq.
    - rewrite run_cons in Hrun. simpl in Hq.
      destruct (step l s0) as [s1|] eqn:H1; simplify_eq/=.
      apply andb_prop in Hq as [Hl Hq].
      apply negb_true_iff in Hl.
      apply (IH s1); [|done..]. split; [by eapply invariant_step|].
      split; [by eapply empty_when_quiescent_step|by eapply no_purge_step]. }
  intros Hrun Hq. apply (Hgen ls (create_threadpool n g)); [|done..].
  split; [by apply invariant_create|]. done.
Qed.

(** X9: when no task is linked while [waiting_threads] equals the
    number of workers, nothing is lost: once [wait_for_completion] has
    returned, the queue is empty, the purge of [destroy_threadpool]
    finds nothing, and the tasks whose action has been called are
    exactly the tasks submitted, each as often as it was submitted. *)
Theorem all_tasks_run_without_late_submission n g ls s :
  0 ≤ n < uint_modulus →
  run ls (create_threadpool n g) = Some s →
  no_late_add ls (create_threadpool n g) = true →
  in_destroy (main_at s) = true →
  executed (hist s) ≡ₚ added (hist s) ∧ tp_head s = [] ∧
  purged (hist s) = [].
Proof.
  intros Hn Hrun Hq Hd.
  destruct (no_late_add_run _ _ _ _ Hn Hrun Hq)
    as ((Hs & Hx & Hc & Hst) & He & Hp).
  pose proof (destroy_quiescent _ Hs Hst Hd) as Hqu.
  destruct (destroy_after_join _ Hs Hx Hd) as [_ Hret].
  destruct (fifo_run _ _ _ _ Hn Hrun) as [Hf _].
  pose proof (dequeued_run _ _ _ _ Hrun) as Hdq.
  rewrite held_tasks_none, app_nil_r in Hdq.
  - rewrite Hp, (He Hqu), !app_nil_r in Hf. rewrite Hf. by rewrite Hdq, He.
  - intros j pc Hj. specialize (Hret j pc Hj). by destruct pc.
Qed.

Lemma all_tasks_run_without_late_submission_witness :
  ∃ s, run clean_run (create_threadpool 1 (Statics 0 0)) = Some s ∧
       main_at s = MExit ∧ added (hist s) = [7%nat] ∧
       executed (hist s) ≡ₚ added (hist s).
Proof.
  assert (Hn : 0 ≤ 1 < uint_modulus) by (unfold uint_modulus; lia).
  assert (∃ s, run clean_run (create_threadpool 1 (Statics 0 0)) = Some s ∧
               main_at s = MExit ∧ added (hist s) = [7%nat] ∧
               in_destroy (main_at s) = true) as (s & Hrun & Hm & Ha & Hd).
  { eexists. split; [vm_compute; reflexivity|]. repeat split; reflexivity. }
  assert (Hq : no_late_add clean_run (create_threadpool 1 (Statics 0 0))
               = true) by (vm_compute; reflexivity).
  exists s. split; [exact Hrun|]. split; [exact Hm|]. split; [exact Ha|].
  exact (proj1 (all_tasks_run_without_late_submission 1 (Statics 0 0) _ s
                  Hn Hrun Hq Hd)).
Defined.

(** ** No deadlock *)

Lemma signal_enabled s : ∃ pick s', pthread_cond_signal pick s = Some s'.
Proof.
  destruct (existsb is_blocked (threads s)) eqn:E.
  - apply existsb_exists in E as (pc & Hin & Hb).
    apply list_elem_of_In, list_elem_of_lookup in Hin as [k Hk].
    destruct pc; try done.
    exists (Some k). eexists. unfold pthread_cond_signal. by rewrite Hk.
  - exists None. eexists. unfold pthread_cond_signal. by rewrite E.
Qed.

Lemma call_enabled me call s :
  call_holds call = true ∨ tp_mutex s = None →
  ∃ c r, client me call c s = Some r ∧ is_submit (me, c) = false.
Proof.
  intros Hm. destruct call as [[t p]|]; [|by exists Tau; eexists].
  destruct p; simpl in *.
  - by exists Tau; eexists.
  - destruct Hm as [?|Hm]; [done|]. exists Tau. eexists.
    unfold pthread_mutex_lock. by rewrite Hm.
  - by exists Tau; eexists.
  - destruct (signal_enabled s) as (pick & s' & Hs).
    exists (Wake pick). eexists. by rewrite Hs.
  - by exists Tau; eexists.
Qed.

Lemma worker_enabled s j pc :
  threads s !! j = Some pc →
  loop_holds pc = true ∨ tp_mutex s = None →
  is_blocked pc = false → has_returned pc = false →
  (pc = LDequeue DqPop → tp_head s ≠ []) →
  ∃ l s', step l s = Some s' ∧ is_submit l = false.
Proof.
  intros Hj Hm Hb Hr Hq.
  cut (∃ c r, thread_loop_function j pc c s = Some r ∧
              is_submit (Worker j, c) = false).
  { intros (c & [s1 pc'] & H & Hc). exists (Worker j, c). eexists.
    split; [by eapply worker_does|done]. }
  assert (Hlock : loop_holds pc = false →
                  ∃ s', pthread_mutex_lock (Worker j) s = Some s').
  { intros Hh. destruct Hm as [?|Hm]; [congruence|].
    eexists. unfold pthread_mutex_lock. by rewrite Hm. }
  destruct pc as [|p|r| | | | | | | | |t call|t|b]; try done.
  - exists Tau. simpl. destruct (tp_active s =? 1); by eexists.
  - exists Tau. destruct p as [| | | |t|r]; simpl.
    + destruct (Hlock eq_refl) as [s' ->]. by eexists.
    + by eexists.
    + destruct (negb (queue_is_empty s) && (tp_active s =? 1)); by eexists.
    + destruct (tp_head s) as [|t q] eqn:Hh; [by destruct Hq|]. by eexists.
    + by eexists.
    + by eexists.
  - exists Tau. destruct r; by eexists.
  - exists Tau. simpl. destruct (Hlock eq_refl) as [s' ->]. by eexists.
  - exists Tau. simpl.
    destruct (waiting_threads (glob s) =? tp_num_threads s); [by eexists|].
    destruct (queue_is_empty s && (start (glob s) =? 1)); by eexists.
  - by exists Tau; eexists.
  - by exists Tau; eexists.
  - by exists Tau; eexists.
  - exists Tau. simpl. destruct (Hlock eq_refl) as [s' ->]. by eexists.
  - by exists Tau; eexists.
  - destruct (call_enabled (Worker j) call s) as (c & [s1 k] & Hc & Hn);
      [done|].
    exists c. simpl. rewrite Hc. by eexists.
  - by exists Tau; eexists.
Qed.

Lemma worker_leaves_rescue i pc c s s1 pc' :
  thread_loop_function i pc c s = Some (s1, pc') →
  can_rescue pc' = false →
  can_rescue pc = false ∨
  (pc = LTest ∧ waiting_threads (glob s) ≠ tp_num_threads s ∧ s1 = s) ∨
  (pc = LBroadcast ∧ threads s1 = wake <$> threads s) ∨
  (pc = LWhile ∧ tp_active s ≠ 1).
Proof.
  intros H. worker_cases H; simpl; auto; intros _; right.
  - right. right. split; [done|lia].
  - left. split; [done|]. split; [lia|done].
  - left. split; [done|]. split; [lia|done].
Qed.

Lemma worker_waits i pc c s s1 pc' :
  thread_loop_function i pc c s = Some (s1, pc') →
  is_waiting pc' = true → is_waiting pc = true ∨ pc = LTest.
Proof. intros H. worker_cases H; simpl; auto. Qed.

Lemma counts_zero pc :
  counts pc ≠ 1 → pc = LReturn false ∨ can_rescue pc = true.
Proof.
  destruct pc as [|[| | | | |[]]|[]| | | | | | | | | | |[]]; simpl; auto;
    by intros [].
Qed.

Lemma count_not_full ws :
  count_waiting ws ≠ Z.of_nat (length ws) →
  ∃ j pc, ws !! j = Some pc ∧ counts pc ≠ 1.
Proof.
  intros H. destruct (decide (Forall (λ pc, counts pc = 1) ws)) as [Ha|Hn].
  - destruct H. apply count_all_one. intros j pc Hj.
    by eapply Forall_lookup_1 in Ha.
  - apply not_Forall_Exists in Hn; [|apply _].
    apply Exists_exists in Hn as (pc & Hin & Hpc).
    apply list_elem_of_lookup in Hin as [j Hj]. eauto.
Qed.

Lemma rescuer_stays ws ws' j pc :
  woken_only ws ws' → ws !! j = Some pc → can_rescue pc = true →
  ws' !! j = Some pc.
Proof.
  intros Hw Hj Hr. eapply woken_only_lookup; [done..|]. by destruct pc.
Qed.

Lemma waiting_before ws ws' j pc :
  woken_only ws ws' → ws' !! j = Some pc → is_waiting pc = true →
  ws !! j = Some pc.
Proof.
  intros Hw Hj Hwt. destruct (Hw j) as [E|[_ E]]; [congruence|].
  rewrite Hj in E. by simplify_eq.
Qed.

Lemma rescue_inv_step l s s' :
  invariant s → rescue_inv s → step l s = Some s' → rescue_inv s'.
Proof.
  intros (Hs & Hx & Hc & Hbin & Hst & Hb) IH H (k & q & Hk & Hq).
  step_split H i pc s1 pc' Hat; simpl in *.
  - pose proof (main_frame _ _ _ _ _ H) as [Hnt _].
    apply main_spawn in H as [Hw|[E _]].
    + destruct IH as [(j & r & Hj & Hr)|Hlt].
      * exists k, q. split; [by eapply waiting_before|done].
      * left. exists j, r. split; [by eapply rescuer_stays|done].
      * right. rewrite (woken_only_length _ _ Hw). lia.
    + left. exists (length (threads s)), LWhile. split; [|done].
      rewrite E, lookup_app_r, Nat.sub_diag by lia. done.
  - pose proof (worker_leaves_rescue _ _ _ _ _ _ H) as Hleave.
    pose proof (worker_waits _ _ _ _ _ _ H) as Hwaits.
    pose proof (worker_frame _ _ _ _ _ _ H) as (Hret & Hbl & Hm & Hnt & Hw).
    pose proof (woken_only_lookup _ _ _ _ Hw Hat Hbl) as Hpc.
    destruct (can_rescue pc') eqn:Hr'.
    { left. exists i, pc'. split; [by eapply lookup_insert_here|done]. }
    assert (Hkeep : ∀ j r, j ≠ i → threads s !! j = Some r →
              can_rescue r = true →
              <[i:=pc']> (threads s1) !! j = Some r).
    { intros j r Hne Hj Hr. rewrite list_lookup_insert_ne by done.
      by eapply rescuer_stays. }
    destruct (Hleave eq_refl) as [Hr|[(-> & Hne & ->)|[(-> & E)|(-> & Ha)]]].
    + destruct IH as [(j & r & Hj & Hrj)|Hlt].
      * apply list_lookup_insert_Some in Hk as [(-> & <- & _)|[Hne Hk]].
        -- destruct (Hwaits Hq) as [?| ->]; [eauto|done].
        -- exists k, q. split; [by eapply waiting_before|done].
      * left. exists j, r. split; [|done]. apply Hkeep; [|done..].
        intros ->. congruence.
      * right. rewrite length_insert, (woken_only_length _ _ Hw). lia.
    + pose proof (worker_not_joined _ _ _ Hs Hat eq_refl) as Hnd.
      assert (Hcount : waiting_threads (glob s) = count_waiting (threads s)).
      { unfold counted in Hc. destruct (main_at s) as [| | |[]|]; done. }
      pose proof (shape_length _ Hs) as Hlen.
      rewrite length_insert.
      destruct (decide (Z.of_nat (length (threads s)) < tp_num_threads s))
        as [?|Hge]; [by right|].
      left. destruct (count_not_full (threads s)) as (j & r & Hj & Hr); [lia|].
      destruct (counts_zero _ Hr) as [->|Hrj]; [by destruct (Hb j)|].
      exists j, r. split; [|done]. apply Hkeep; [|done..].
      intros ->. rewrite Hat in Hj. by simplify_eq.
    + exfalso. rewrite E in Hk.
      apply list_lookup_insert_Some in Hk as [(_ & <- & _)|[Hne Hk]];
        [by worker_cases H|].
      rewrite list_lookup_fmap in Hk.
      destruct (threads s !! k) as [r|] eqn:Hr; simplify_eq/=.
      destruct r; simplify_eq/=.
      assert (Hmk : tp_mutex s = Some (Worker k)).
      { apply Hx. rewrite holds_worker. by rewrite Hr. }
      assert (Hmi : tp_mutex s = Some (Worker i)).
      { apply Hx. rewrite holds_worker. by rewrite Hat. }
      congruence.
    + exfalso. destruct Hst as [_ Hg]; [by left|].
      by specialize (Hg _ _ Hat).
Qed.

Lemma rescue_inv_run n g ls s :
  0 ≤ n < uint_modulus →
  run ls (create_threadpool n g) = Some s → invariant s ∧ rescue_inv s.
Proof.
  intros Hn Hrun.
  eapply (run_invariant (λ s, invariant s ∧ rescue_inv s)); [| |done].
  - intros l s0 s1 [Hinv IH] H.
    split; [by eapply invariant_step|by eapply rescue_inv_step].
  - split; [by apply invariant_create|].
    intros (j & pc & Hj & _). by destruct j.
Qed.

Lemma main_enabled s :
  tp_mutex s = None → main_at s ≠ MExit →
  (∀ k, main_at s = MWait k → Z.of_nat k < tp_num_threads s →
        ∃ b, threads s !! k = Some (LReturn b)) →
  ∃ l s', step l s = Some s' ∧ is_submit l = false.
Proof.
  intros Hm Hne Hw.
  cut (∃ c r, main (main_at s) c s = Some r ∧ is_submit (Main, c) = false).
  { intros (c & [s1 pc'] & H & Hc). exists (Main, c). eexists.
    rewrite step_main, H. done. }
  destruct (main_at s) as [k|call|k|p|] eqn:Hpc; [| | | |done].
  - exists Tau. simpl. destruct (Z.of_nat k <? tp_num_threads s); by eexists.
  - destruct (call_enabled Main call s) as (c & [s1 r] & Hc & Hn); [by right|].
    exists c. simpl. rewrite Hc. by eexists.
  - exists Tau. simpl. destruct (Z.of_nat k <? tp_num_threads s) eqn:Hk.
    + destruct (Hw k eq_refl) as [b ->]; [lia|]. by eexists.
    + by eexists.
  - exists Tau. simpl. destruct (destroy_threadpool p s). by eexists.
Qed.

(** Until [main] has returned from [destroy_threadpool], some thread
    has a statement to execute that does not begin a submission. *)
Lemma progress n g ls s :
  0 ≤ n < uint_modulus →
  run ls (create_threadpool n g) = Some s →
  main_at s ≠ MExit →
  ∃ l s', step l s = Some s' ∧ is_submit l = false.
Proof.
  intros Hn Hrun Hne.
  destruct (rescue_inv_run _ _ _ _ Hn Hrun) as [Hinv Hres].
  pose proof Hinv as (Hs & Hx & _).
  pose proof (pop_nonempty _ _ _ _ Hn Hrun) as Hpop.
  destruct (tp_mutex s) as [[|j]|] eqn:Hm.
  - (* main owns the mutex *)
    pose proof (proj2 (Hx Main) Hm) as Hh. simpl in Hh.
    destruct (main_at s) as [|call| | |] eqn:Hpc; try done.
    destruct (call_enabled Main call s) as (c & [s1 r] & Hc & Hns); [by left|].
    exists (Main, c). eexists. rewrite step_main, Hpc. simpl. by rewrite Hc.
  - (* worker j owns the mutex *)
    pose proof (proj2 (Hx (Worker j)) Hm) as Hh. rewrite holds_worker in Hh.
    destruct (threads s !! j) as [pc|] eqn:Hj; [|done].
    eapply (worker_enabled s j pc); auto.
    + by destruct pc.
    + by destruct pc.
    + intros ->. by apply (Hpop j).
  - (* the mutex is free *)
    destruct (main_at s) as [k|call|k|p|] eqn:Hpc; [| | | |done].
    1, 2, 4: apply main_enabled; [done|by rewrite Hpc|];
      intros k' Hk'; rewrite Hpc in Hk'; discriminate Hk'.
    destruct (decide (Z.of_nat k < tp_num_threads s)) as [Hlt|Hge].
    2:{ apply main_enabled; [done|by rewrite Hpc|].
        intros k' Hk' Hlt. rewrite Hpc in Hk'. by simplify_eq. }
    destruct Hs as [_ Hsh]. rewrite Hpc in Hsh. destruct Hsh as [Hlen _].
    destruct (lookup_lt_is_Some_2 (threads s) k) as [pc Hk]; [lia|].
    destruct (has_returned pc) eqn:Hret.
    { apply main_enabled; [done|by rewrite Hpc|].
      intros k' Hk' _. rewrite Hpc in Hk'. simplify_eq.
      destruct pc; try done. eauto. }
    destruct (is_blocked pc) eqn:Hb.
    + destruct Hres as [(j & r & Hj & Hr)|Hlt']; [| |lia].
      { exists k, pc. split; [done|]. by destruct pc. }
      eapply (worker_enabled s j r); auto.
      * by destruct r.
      * by destruct r.
      * intros ->. by apply (Hpop j).
    + eapply (worker_enabled s k pc); auto.
      intros ->. by apply (Hpop k).
Qed.


(** X11: the pool never deadlocks.  In every state a freshly created
    pool can reach, until [main] has returned from
    [destroy_threadpool], some thread has a statement it can execute:
    no state has every worker asleep on the condition variable or
    waiting for the mutex with nobody left to wake or release it. *)
Theorem pool_never_deadlocks n g ls s :
  0 ≤ n < uint_modulus →
  run ls (create_threadpool n g) = Some s →
  main_at s ≠ MExit →
  ∃ l s', step l s = Some s'.
Proof.
  intros Hn Hrun Hne.
  destruct (progress _ _ _ _ Hn Hrun Hne) as (l & s' & H & _). eauto.
Qed.

Lemma pool_never_deadlocks_witness :
  ∃ s l s', run woken_before (create_threadpool 2 (Statics 0 0)) = Some s ∧
            threads s !! 1%nat = Some LWoken ∧ step l s = Some s'.
Proof.
  assert (Hn : 0 ≤ 2 < uint_modulus) by (unfold uint_modulus; lia).
  assert (∃ s, run woken_before (create_threadpool 2 (Statics 0 0)) = Some s ∧
               threads s !! 1%nat = Some LWoken ∧ main_at s = MProcess None)
    as (s & Hrun & Hw & Hm).
  { eexists. split; [vm_compute; reflexivity|]. split; reflexivity. }
  destruct (pool_never_deadlocks 2 (Statics 0 0) _ s Hn Hrun)
    as (l & s' & Hstep).
  { rewrite Hm. discriminate. }
  exists s, l, s'. split; [exact Hrun|]. split; [exact Hw|exact Hstep].
Defined.

(** ** Executions are finite *)

Lemma loop_cost_nonneg pc : 0 ≤ loop_cost pc.
Proof.
  destruct pc as [|[| | | | |[]]|[]| | | | | | | | |t [[? []]|]| |]; simpl; lia.
Qed.

Lemma workers_cost_nonneg ws : 0 ≤ workers_cost ws.
Proof.
  induction ws as [|pc ws IH]; simpl; [lia|].
  pose proof (loop_cost_nonneg pc). lia.
Qed.

Lemma main_cost_nonneg n pc : 0 ≤ main_cost n pc.
Proof. destruct pc as [|[[? []]|]| |[]|]; simpl; lia. Qed.

Lemma cost_nonneg s : 0 ≤ cost s.
Proof.
  unfold cost, task_cost. pose proof (main_cost_nonneg (tp_num_threads s) (main_at s)).
  pose proof (workers_cost_nonneg (threads s)). lia.
Qed.

Lemma workers_cost_app ws1 ws2 :
  workers_cost (ws1 ++ ws2) = workers_cost ws1 + workers_cost ws2.
Proof. induction ws1 as [|pc ws1 IH]; simpl; lia. Qed.

Lemma workers_cost_insert ws i pc pc' :
  ws !! i = Some pc →
  workers_cost (<[i := pc']> ws) = workers_cost ws - loop_cost pc + loop_cost pc'.
Proof.
  revert i. induction ws as [|q ws IH]; intros [|i] Hi; simplify_eq/=.
  - lia.
  - rewrite (IH i Hi). lia.
Qed.

Lemma workers_cost_woken ws ws' :
  woken_only ws ws' → workers_cost ws' = workers_cost ws.
Proof.
  intros Hw. pose proof (woken_only_length _ _ Hw) as Hlen.
  revert ws' Hw Hlen. induction ws as [|pc ws IH]; intros [|pc' ws'] Hw Hlen;
    simplify_eq/=; [done|].
  rewrite (IH ws'); [|intros j; apply (Hw (S j))|done].
  f_equal. destruct (Hw 0%nat) as [E|[E1 E2]]; by simplify_eq/=.
Qed.

(** What a statement of a worker does to the cost of that worker and
    of the queue: a submission adds 15, any other statement takes at
    least 1 away. *)
Lemma worker_cost_step i pc c s s1 pc' :
  thread_loop_function i pc c s = Some (s1, pc') →
  loop_cost pc' + task_cost * Z.of_nat (length (tp_head s1))
  ≤ loop_cost pc + task_cost * Z.of_nat (length (tp_head s))
    + (if is_submit (Worker i, c) then 15 else -1).
Proof.
  intros H. unfold is_submit, task_cost.
  worker_cases H; simpl; rewrite ?length_app; simpl; try lia.
  destruct r; simpl; lia.
Qed.

Lemma main_cost_step pc c s s1 pc' :
  main pc c s = Some (s1, pc') →
  main_cost (tp_num_threads s1) pc' + workers_cost (threads s1)
  + task_cost * Z.of_nat (length (tp_head s1))
  ≤ main_cost (tp_num_threads s) pc + workers_cost (threads s)
    + task_cost * Z.of_nat (length (tp_head s))
    + (if is_submit (Main, c) then 15 else -1).
Proof.
  intros H. unfold is_submit, task_cost.
  main_cases H; simpl; rewrite ?length_app, ?workers_cost_app; simpl;
    try lia.
  - erewrite workers_cost_insert by done. simpl. lia.
  - match goal with E : tp_head _ = [] |- _ => rewrite E end. simpl. lia.
Qed.

Lemma cost_step l s s' :
  step l s = Some s' →
  cost s' ≤ cost s + (if is_submit l then 15 else -1).
Proof.
  intros H. unfold cost. destruct l as [who c].
  step_split H i pc s1 pc' Hat; simpl in *; subst who.
  - by apply main_cost_step.
  - pose proof (worker_cost_step _ _ _ _ _ _ H) as Hc.
    apply worker_frame in H as (_ & Hbl & -> & -> & Hw).
    pose proof (woken_only_lookup _ _ _ _ Hw Hat Hbl) as Hpc.
    rewrite (workers_cost_insert _ _ _ _ Hpc), (workers_cost_woken _ _ Hw).
    lia.
Qed.

Lemma submissions_cons l ls :
  submissions (l :: ls) = (if is_submit l then 1 else 0) + submissions ls.
Proof.
  unfold submissions. rewrite filter_cons.
  destruct (is_submit l); simpl; lia.
Qed.

Lemma run_length ls s s' :
  run ls s = Some s' →
  Z.of_nat (length ls) + cost s' ≤ cost s + 16 * submissions ls.
Proof.
  revert s. induction ls as [|l ls IH]; intros s Hrun.
  - change (Some s = Some s') in Hrun. simplify_eq.
    unfold submissions. simpl. lia.
  - rewrite run_cons in Hrun.
    destruct (step l s) as [s1|] eqn:H1; simplify_eq/=.
    specialize (IH s1 Hrun). pose proof (cost_step _ _ _ H1) as Hc.
    rewrite submissions_cons.
    destruct (is_submit l); lia.
Qed.

(** X13: no execution goes on for ever unless tasks are submitted for
    ever.  An execution of a pool of [n] workers in which
    [enqueue_task] is called [m] times has at most [13 n + 6 + 16 m]
    steps: no worker spins, and a worker that sleeps is woken at most
    once. *)
Theorem executions_are_bounded n g ls s :
  0 ≤ n < uint_modulus →
  run ls (create_threadpool n g) = Some s →
  Z.of_nat (length ls) ≤ 13 * n + 6 + 16 * submissions ls.
Proof.
  intros Hn Hrun. pose proof (run_length _ _ _ Hrun) as H.
  pose proof (cost_nonneg s). unfold cost in H at 2. simpl in H.
  lia.
Qed.

Lemma executions_are_bounded_witness :
  ∃ s, run clean_run (create_threadpool 1 (Statics 0 0)) = Some s ∧
       length clean_run = 35%nat ∧ submissions clean_run = 1 ∧
       Z.of_nat (length clean_run) ≤ 13 * 1 + 6 + 16 * submissions clean_run.
Proof.
  assert (Hn : 0 ≤ 1 < uint_modulus) by (unfold uint_modulus; lia).
  assert (∃ s, run clean_run (create_threadpool 1 (Statics 0 0)) = Some s)
    as (s & Hrun).
  { eexists. vm_compute. reflexivity. }
  exists s. split; [exact Hrun|]. split; [reflexivity|].
  split; [reflexivity|].
  exact (executions_are_bounded 1 (Statics 0 0) clean_run s Hn Hrun).
Defined.

Lemma exit_or_not s : main_at s = MExit ∨ main_at s ≠ MExit.
Proof. destruct (main_at s); auto; right; discriminate. Qed.

Lemma finish_from n g k :
  0 ≤ n < uint_modulus →
  ∀ ls s, cost s ≤ Z.of_nat k →
    run ls (create_threadpool n g) = Some s →
    ∃ ls' s', run ls' s = Some s' ∧ main_at s' = MExit ∧ submissions ls' = 0.
Proof.
  intros Hn. induction k as [|k IH]; intros ls s Hk Hrun.
  all: destruct (exit_or_not s) as [Hm|Hne];
    [by exists [], s|].
  all: destruct (progress _ _ _ _ Hn Hrun Hne) as (l & s1 & H1 & Hsub).
  all: pose proof (cost_step _ _ _ H1) as Hc; rewrite Hsub in Hc.
  all: pose proof (cost_nonneg s1).
  - lia.
  - destruct (IH (ls ++ [l]) s1) as (ls' & s' & Hrun' & Hm' & Hs'); [lia| |].
    { rewrite run_app, Hrun. simpl. rewrite run_cons, H1. done. }
    exists (l :: ls'), s'. rewrite run_cons, H1.
    split; [done|]. split; [done|].
    rewrite submissions_cons, Hsub, Hs'. done.
Qed.

(** X14: the pool can always finish.  From every state a pool can
    reach there is a continuation, with no further call of
    [enqueue_task], at the end of which [main] has returned from
    [destroy_threadpool]; every worker has then returned. *)
Theorem pool_can_always_finish n g ls s :
  0 ≤ n < uint_modulus →
  run ls (create_threadpool n g) = Some s →
  ∃ ls' s', run ls' s = Some s' ∧ main_at s' = MExit ∧
            submissions ls' = 0 ∧
            ∀ j pc, threads s' !! j = Some pc → has_returned pc = true.
Proof.
  intros Hn Hrun.
  destruct (finish_from n g (Z.to_nat (cost s)) Hn ls s) as
    (ls' & s' & Hrun' & Hm & Hs); [pose proof (cost_nonneg s); lia|done|].
  exists ls', s'. do 3 (split; [done|]).
  assert (Hall : run (ls ++ ls') (create_threadpool n g) = Some s').
  { rewrite run_app, Hrun. done. }
  destruct (invariant_run _ _ _ _ Hn Hall) as (Hsh & Hx & _).
  apply (destroy_after_join s' Hsh Hx). by rewrite Hm.
Qed.

Lemma pool_can_always_finish_witness :
  ∃ s ls' s', run woken_before (create_threadpool 2 (Statics 0 0)) = Some s ∧
              tp_head s = [2%nat] ∧
              run ls' s = Some s' ∧ main_at s' = MExit.
Proof.
  assert (Hn : 0 ≤ 2 < uint_modulus) by (unfold uint_modulus; lia).
  assert (∃ s, run woken_before (create_threadpool 2 (Statics 0 0)) = Some s ∧
               tp_head s = [2%nat]) as (s & Hrun & Hq).
  { eexists. split; [vm_compute; reflexivity|]. reflexivity. }
  destruct (pool_can_always_finish 2 (Statics 0 0) _ s Hn Hrun)
    as (ls' & s' & Hrun' & Hm & _).
  exists s, ls', s'. split; [exact Hrun|]. split; [exact Hq|].
  split; [exact Hrun'|exact Hm].
Defined.

(** ** The client *)

Lemma is_done_DONE DONE : is_done DONE DONE = true.
Proof. unfold is_done. apply Z.eqb_refl. Qed.

Lemma is_done_false DONE v : is_done DONE v = false → v ≠ DONE.
Proof. unfold is_done. intros H. by apply Z.eqb_neq. Qed.

Lemma process_node_inv DONE node_id c c' subs :
  process_node DONE node_id c = Some (c', subs) →
  (visited (graph c) !! node_id = Some DONE ∧ c' = c ∧ subs = []) ∨
  (∃ v nd, visited (graph c) !! node_id = Some v ∧ v ≠ DONE ∧
           nodes (graph c) !! node_id = Some nd ∧
           graph c' = Graph (nodes (graph c))
                            (<[node_id := DONE]> (visited (graph c))) ∧
           sum c' = wrap_int (sum c + info nd) ∧
           submit_neighbours DONE (visited (graph c')) (neighbours nd)
             = Some subs).
Proof.
  unfold process_node. intros H.
  destruct (visited (graph c) !! node_id) as [v|] eqn:Hv; simplify_eq/=.
  destruct (is_done DONE v) eqn:Hd.
  - left. simplify_eq. split; [|done]. f_equal.
    unfold is_done in Hd. by apply Z.eqb_eq in Hd.
  - right. destruct (nodes (graph c) !! node_id) as [nd|] eqn:Hn;
      simplify_eq/=.
    destruct (submit_neighbours DONE _ (neighbours nd)) as [s|] eqn:Hs;
      simplify_eq/=.
    exists v, nd. repeat split; try done. by apply is_done_false.
Qed.

(** X15: processing a node a second time does nothing: after a call
    of [process_node] for a node, a further call for the same node
    leaves the graph and the sum as they are and submits no task. *)
Theorem process_node_twice DONE node_id c c' subs :
  process_node DONE node_id c = Some (c', subs) →
  process_node DONE node_id c' = Some (c', []).
Proof.
  intros H.
  assert (Hv : visited (graph c') !! node_id = Some DONE).
  { destruct (process_node_inv _ _ _ _ _ H)
      as [(Hv & -> & _)|(v & nd & Hv & _ & _ & -> & _)]; [done|].
    simpl. apply list_lookup_insert_eq. by eapply lookup_lt_Some. }
  unfold process_node. rewrite Hv. simpl. by rewrite is_done_DONE.
Qed.

Lemma process_node_twice_witness :
  process_node 2 0
    (Client (Graph [Node 10 [1%nat]; Node 20 []] [2; 0]) 10)
  = Some (Client (Graph [Node 10 [1%nat]; Node 20 []] [2; 0]) 10, []).
Proof.
  apply (process_node_twice 2 0
           (Client (Graph [Node 10 [1%nat]; Node 20 []] [0; 0]) 0)
           _ [1%nat]).
  reflexivity.
Defined.

Lemma submit_neighbours_spec DONE vis nbs subs :
  submit_neighbours DONE vis nbs = Some subs →
  subs = filter (λ nb, vis !! nb ≠ Some DONE) nbs ∧
  ∀ nb, nb ∈ nbs → ∃ v, vis !! nb = Some v.
Proof.
  revert subs. induction nbs as [|nb nbs IH]; intros subs H; simplify_eq/=.
  - split; [done|]. intros nb Hnb. by apply elem_of_nil in Hnb.
  - destruct (vis !! nb) as [v|] eqn:Hv; simplify_eq/=.
    destruct (submit_neighbours DONE vis nbs) as [s|] eqn:Hs; simplify_eq/=.
    destruct (IH s eq_refl) as [-> Hall]. split.
    + rewrite filter_cons. destruct (is_done DONE v) eqn:Hd.
      * unfold is_done in Hd. apply Z.eqb_eq in Hd. subst v.
        by rewrite decide_False by (by intros []).
      * apply is_done_false in Hd.
        rewrite decide_True; [done|]. rewrite Hv. congruence.
    + intros x Hx. apply elem_of_cons in Hx as [->|Hx]; eauto.
Qed.

(** X16: a first visit creates one task for every neighbour that is
    not [DONE] once the node itself is marked, in the order of the
    [neighbours] array, and no other task: none for a neighbour that
    is [DONE], none for the node itself. *)
Theorem process_node_submits_unvisited DONE node_id c c' subs v nd :
  process_node DONE node_id c = Some (c', subs) →
  visited (graph c) !! node_id = Some v → v ≠ DONE →
  nodes (graph c) !! node_id = Some nd →
  visited (graph c') = <[node_id := DONE]> (visited (graph c)) ∧
  subs = filter (λ nb, visited (graph c') !! nb ≠ Some DONE) (neighbours nd) ∧
  node_id ∉ subs.
Proof.
  intros H Hv Hne Hn.
  destruct (process_node_inv _ _ _ _ _ H)
    as [(Hv' & _)|(v' & nd' & _ & _ & Hn' & Hg & _ & Hs)]; [congruence|].
  assert (nd' = nd) by congruence. subst nd'.
  destruct (submit_neighbours_spec _ _ _ _ Hs) as [Hsubs _].
  rewrite Hg in *. simpl in *. split; [done|]. split; [done|].
  rewrite Hsubs. intros Hin. apply list_elem_of_filter in Hin as [Hin _].
  apply Hin. apply list_lookup_insert_eq. by eapply lookup_lt_Some.
Qed.

Lemma process_node_submits_unvisited_witness :
  ∃ c' subs,
    process_node 2 0
      (Client (Graph [Node 10 [1; 0; 2]%nat; Node 20 []; Node 30 []]
                     [0; 0; 2]) 0) = Some (c', subs) ∧
    subs = [1%nat].
Proof.
  eexists. eexists. split; [reflexivity|].
  refine (eq_trans (proj1 (proj2 (process_node_submits_unvisited 2 0
            (Client (Graph [Node 10 [1; 0; 2]%nat; Node 20 []; Node 30 []]
                     [0; 0; 2]) 0) _ _ 0 (Node 10 [1; 0; 2]%nat)
            eq_refl eq_refl _ eq_refl))) _).
  - discriminate.
  - reflexivity.
Defined.

Lemma wrap_int_add a b : wrap_int (wrap_int a + b) = wrap_int (a + b).
Proof.
  unfold wrap_int.
  replace ((a + 2 ^ 31) mod 2 ^ 32 - 2 ^ 31 + b + 2 ^ 31)
    with ((a + 2 ^ 31) mod 2 ^ 32 + b) by lia.
  rewrite Zplus_mod_idemp_l. f_equal. f_equal. lia.
Qed.

Lemma done_total_insert DONE ns vis i v nd :
  vis !! i = Some v → v ≠ DONE → ns !! i = Some nd →
  done_total DONE ns (<[i := DONE]> vis) = done_total DONE ns vis + info nd.
Proof.
  revert vis i. induction ns as [|n ns IH]; intros [|w vis] [|i] Hv Hne Hn;
    simplify_eq/=.
  - rewrite is_done_DONE. unfold is_done.
    apply Z.eqb_neq in Hne. rewrite Hne. lia.
  - rewrite (IH vis i Hv Hne Hn). lia.
Qed.

Lemma process_node_sum DONE node_id c c' subs base :
  process_node DONE node_id c = Some (c', subs) →
  sum c = wrap_int (base + done_total DONE (nodes (graph c))
                                      (visited (graph c))) →
  nodes (graph c') = nodes (graph c) ∧
  sum c' = wrap_int (base + done_total DONE (nodes (graph c'))
                                       (visited (graph c'))).
Proof.
  intros H Hsum.
  destruct (process_node_inv _ _ _ _ _ H)
    as [(_ & -> & _)|(v & nd & Hv & Hne & Hn & -> & -> & _)]; [done|].
  simpl. split; [done|].
  rewrite (done_total_insert _ _ _ _ _ _ Hv Hne Hn), Hsum, wrap_int_add.
  f_equal. lia.
Qed.

(** X17: however the tasks are ordered and however often a node is
    processed, every node is counted once: after any sequence of calls
    of [process_node], [sum] is (in [int] arithmetic) what it was plus
    the [info] of the nodes that have become [DONE].  Stated with the
    sum of the [info] of all [DONE] nodes: if [sum] is [base] plus that
    sum before the calls, it is so after them. *)
Theorem sum_counts_each_node_once DONE ids c c' subs base :
  process_nodes DONE ids c = Some (c', subs) →
  sum c = wrap_int (base + done_total DONE (nodes (graph c))
                                      (visited (graph c))) →
  nodes (graph c') = nodes (graph c) ∧
  sum c' = wrap_int (base + done_total DONE (nodes (graph c'))
                                       (visited (graph c'))).
Proof.
  revert c subs. induction ids as [|i ids IH]; intros c subs H Hsum;
    simplify_eq/=; [done|].
  destruct (process_node DONE i c) as [[c1 s1]|] eqn:H1; simplify_eq/=.
  destruct (process_nodes DONE ids c1) as [[c2 s2]|] eqn:H2; simplify_eq/=.
  destruct (process_node_sum _ _ _ _ _ _ H1 Hsum) as [Hn1 Hs1].
  destruct (IH _ _ H2 Hs1) as [Hn2 Hs2]. split; [congruence|done].
Qed.

Lemma sum_counts_each_node_once_witness :
  ∃ c' subs,
    process_nodes 2 [0; 1; 0; 1]%nat
      (Client (Graph [Node 10 [1%nat]; Node 20 [0%nat]] [0; 0]) 0)
    = Some (c', subs) ∧ sum c' = 30.
Proof.
  eexists. eexists. split; [reflexivity|].
  exact (proj2 (sum_counts_each_node_once 2 [0; 1; 0; 1]%nat
    (Client (Graph [Node 10 [1%nat]; Node 20 [0%nat]] [0; 0]) 0) _ _ 0
    eq_refl eq_refl)).
Defined.

Lemma process_node_done DONE node_id c c' subs :
  process_node DONE node_id c = Some (c', subs) →
  length (visited (graph c')) = length (visited (graph c)) ∧
  visited (graph c') !! node_id = Some DONE ∧
  ∀ i, visited (graph c) !! i = Some DONE →
       visited (graph c') !! i = Some DONE.
Proof.
  intros H.
  destruct (process_node_inv _ _ _ _ _ H)
    as [(Hv & -> & _)|(v & nd & Hv & Hne & Hn & -> & _ & _)]; [done|].
  simpl. rewrite length_insert. split; [done|]. split.
  - apply list_lookup_insert_eq. by eapply lookup_lt_Some.
  - intros i Hi. destruct (decide (node_id = i)) as [->|Hni].
    + congruence.
    + by rewrite list_lookup_insert_ne.
Qed.

(** X18: [process_node] never un-marks a node: after any sequence of
    calls every node that was [DONE] is still [DONE], every node that
    was processed is [DONE], and the visited array has kept its
    length. *)
Theorem processed_nodes_are_done DONE ids c c' subs :
  process_nodes DONE ids c = Some (c', subs) →
  length (visited (graph c')) = length (visited (graph c)) ∧
  (∀ i, visited (graph c) !! i = Some DONE →
        visited (graph c') !! i = Some DONE) ∧
  (∀ i, i ∈ ids → visited (graph c') !! i = Some DONE).
Proof.
  revert c subs. induction ids as [|i ids IH]; intros c subs H;
    simplify_eq/=.
  - split; [done|]. split; [done|]. intros i Hi. by apply elem_of_nil in Hi.
  - destruct (process_node DONE i c) as [[c1 s1]|] eqn:H1; simplify_eq/=.
    destruct (process_nodes DONE ids c1) as [[c2 s2]|] eqn:H2; simplify_eq/=.
    destruct (process_node_done _ _ _ _ _ H1) as (Hl1 & Hi1 & Hk1).
    destruct (IH _ _ H2) as (Hl2 & Hk2 & Hin2).
    split; [congruence|]. split; [auto|].
    intros j Hj. apply elem_of_cons in Hj as [->|Hj]; auto.
Qed.

Lemma processed_nodes_are_done_witness :
  ∃ c' subs,
    process_nodes 2 [1; 0]%nat
      (Client (Graph [Node 10 [1%nat]; Node 20 [0%nat]] [0; 0]) 0)
    = Some (c', subs) ∧ visited (graph c') !! 0%nat = Some 2.
Proof.
  eexists. eexists. split; [reflexivity|].
  apply (proj2 (proj2 (processed_nodes_are_done 2 [1; 0]%nat
    (Client (Graph [Node 10 [1%nat]; Node 20 [0%nat]] [0; 0]) 0) _ _
    eq_refl)) 0%nat).
  apply elem_of_cons. right. apply elem_of_cons. by left.
Defined.

(** ** When every submitted task is run *)

Lemma done_total_none DONE ns vis :
  (∀ u, vis !! u ≠ Some DONE) → done_total DONE ns vis = 0.
Proof.
  revert vis. induction ns as [|nd ns IH]; intros [|v vis] H; simpl; try done.
  assert (is_done DONE v = false) as ->.
  { unfold is_done. apply Z.eqb_neq. intros ->. by apply (H 0%nat). }
  rewrite IH; [done|]. intros u. apply (H (S u)).
Qed.

(** A first visit leaves every neighbour [DONE] or with a task of its
    own. *)
Lemma process_node_neighbours DONE node_id c c' subs :
  process_node DONE node_id c = Some (c', subs) →
  visited (graph c) !! node_id ≠ Some DONE →
  ∀ v, edge (graph c) node_id v →
       visited (graph c') !! v = Some DONE ∨ v ∈ subs.
Proof.
  intros H Hv v (nd & Hnd & Hin).
  destruct (process_node_inv _ _ _ _ _ H)
    as [(Hv' & _)|(w & nd' & _ & _ & Hnd' & Hg & _ & Hs)]; [done|].
  assert (nd' = nd) by congruence. subst nd'.
  destruct (submit_neighbours_spec _ _ _ _ Hs) as [-> Hall].
  destruct (Hall v Hin) as [x Hx].
  destruct (decide (x = DONE)) as [->|Hne]; [by left|].
  right. apply list_elem_of_filter. split; [|done].
  rewrite Hx. congruence.
Qed.

(** After a sequence of calls: the nodes are those of before, a node
    that was [DONE] or has been processed is [DONE], and a node that
    has become [DONE] has been processed, each of its neighbours being
    [DONE] or the node of a task submitted by the calls. *)
Lemma process_nodes_closed DONE ids c c' subs :
  process_nodes DONE ids c = Some (c', subs) →
  nodes (graph c') = nodes (graph c) ∧
  (∀ u, visited (graph c) !! u = Some DONE →
        visited (graph c') !! u = Some DONE) ∧
  (∀ u, u ∈ ids → visited (graph c') !! u = Some DONE) ∧
  (∀ u, visited (graph c') !! u = Some DONE →
        visited (graph c) !! u = Some DONE ∨
        (u ∈ ids ∧
         ∀ v, edge (graph c) u v →
              visited (graph c') !! v = Some DONE ∨ v ∈ subs)).
Proof.
  revert c subs. induction ids as [|i ids IH]; intros c subs H;
    simplify_eq/=.
  - split; [done|]. split; [done|]. split; [|by left].
    intros u Hu. by apply elem_of_nil in Hu.
  - destruct (process_node DONE i c) as [[c1 s1]|] eqn:H1; simplify_eq/=.
    destruct (process_nodes DONE ids c1) as [[c2 s2]|] eqn:H2; simplify_eq/=.
    destruct (process_node_done _ _ _ _ _ H1) as (_ & Hi1 & Hk1).
    destruct (IH _ _ H2) as (Hn2 & Hk2 & Hin2 & Hcl2).
    assert (Hn1 : nodes (graph c1) = nodes (graph c)).
    { destruct (process_node_inv _ _ _ _ _ H1)
        as [(_ & -> & _)|(v & nd & _ & _ & _ & -> & _)]; done. }
    assert (Hedge : ∀ u v, edge (graph c) u v → edge (graph c1) u v).
    { intros u v (nd & Hnd & Hin). exists nd. by rewrite Hn1. }
    split; [congruence|]. split; [auto|]. split.
    { intros u Hu. apply elem_of_cons in Hu as [->|Hu]; auto. }
    intros u Hu. destruct (Hcl2 u Hu) as [Hu1|[Hu1 Hcl]].
    + destruct (decide (visited (graph c) !! u = Some DONE)) as [|Hnot];
        [by left|].
      right. assert (u = i) as ->.
      { destruct (process_node_inv _ _ _ _ _ H1)
          as [(_ & -> & _)|(v & nd & _ & _ & _ & Hg & _)]; [done|].
        rewrite Hg in Hu1. simpl in Hu1.
        destruct (decide (i = u)) as [|Hne]; [done|].
        by rewrite list_lookup_insert_ne in Hu1. }
      split; [apply elem_of_cons; by left|].
      intros v Hv.
      destruct (process_node_neighbours _ _ _ _ _ H1 Hnot v Hv) as [Hd|Hs].
      * left. by apply Hk2.
      * right. apply elem_of_app. by left.
    + right. split; [apply elem_of_cons; by right|].
      intros v Hv. destruct (Hcl v (Hedge _ _ Hv)) as [Hd|Hs]; [by left|].
      right. apply elem_of_app. by right.
Qed.

(** X19: the traversal is complete as far as the tasks are run.  Take
    any sequence of calls of [process_node], each run from beginning to
    end, on a graph with no node marked and [sum] 0, such that the seed
    is processed and every task the calls submit is run as well.  Then
    every node that can be reached from the seed is [DONE]; a node is
    [DONE] only if a task for it was run; and [sum] is (in [int]
    arithmetic) the sum of the [info] of the [DONE] nodes. *)
Theorem reachable_nodes_are_counted DONE ids seed c c' subs :
  process_nodes DONE ids c = Some (c', subs) →
  (∀ u, visited (graph c) !! u ≠ Some DONE) → sum c = 0 →
  seed ∈ ids → (∀ t, t ∈ subs → t ∈ ids) →
  (∀ u, reach (graph c) seed u → visited (graph c') !! u = Some DONE) ∧
  (∀ u, visited (graph c') !! u = Some DONE → u ∈ ids) ∧
  sum c' = wrap_int (done_total DONE (nodes (graph c)) (visited (graph c'))).
Proof.
  intros H Hnone Hsum Hseed Hsubs.
  destruct (process_nodes_closed _ _ _ _ _ H) as (Hn & _ & Hin & Hcl).
  split; [|split].
  - intros u Hu. induction Hu as [|v w _ IH Hvw]; [by apply Hin|].
    destruct (Hcl v IH) as [Hv|[_ Hv]]; [by apply Hnone in Hv|].
    destruct (Hv w Hvw) as [|Hw]; [done|]. by apply Hin, Hsubs.
  - intros u Hu. destruct (Hcl u Hu) as [Hv|[Hv _]]; [|done].
    by apply Hnone in Hv.
  - assert (Hs0 : sum c = wrap_int (0 + done_total DONE (nodes (graph c))
                                         (visited (graph c)))).
    { by rewrite (done_total_none _ _ _ Hnone), Hsum. }
    revert Hs0. clear -H. revert c subs H.
    induction ids as [|i ids IH]; intros c subs H Hs0; simplify_eq/=.
    + by rewrite Hs0.
    + destruct (process_node DONE i c) as [[c1 s1]|] eqn:H1; simplify_eq/=.
      destruct (process_nodes DONE ids c1) as [[c2 s2]|] eqn:H2;
        simplify_eq/=.
      destruct (process_node_sum _ _ _ _ _ _ H1 Hs0) as [Hn1 Hs1].
      rewrite <- Hn1. by eapply IH.
Qed.

Lemma reachable_nodes_are_counted_witness :
  ∃ c' subs,
    process_nodes 2 [0; 1; 2; 3]%nat (Client chain_graph 0)
      = Some (c', subs) ∧
    subs = [1; 2; 3]%nat ∧
    visited (graph c') !! 3%nat = Some 2 ∧ sum c' = 100.
Proof.
  eexists. eexists. split; [reflexivity|]. split; [reflexivity|].
  destruct (reachable_nodes_are_counted 2 [0; 1; 2; 3]%nat 0%nat
              (Client chain_graph 0) _ _ eq_refl) as (Hr & _ & Hs).
  - intros [|[|[|[|u]]]]; discriminate.
  - reflexivity.
  - apply elem_of_cons. by left.
  - intros t Ht. repeat (apply elem_of_cons in Ht as [->|Ht];
      [repeat first [apply list_elem_of_here | apply list_elem_of_further]|]).
    by apply elem_of_nil in Ht.
  - split; [|exact Hs]. apply Hr.
    eapply reach_step; [eapply reach_step; [eapply reach_step;
      [apply reach_refl|]|]|].
    + exists (Node 10 [1%nat]). split; [reflexivity|]. apply elem_of_cons. by left.
    + exists (Node 20 [2%nat]). split; [reflexivity|]. apply elem_of_cons. by left.
    + exists (Node 30 [3%nat]). split; [reflexivity|]. apply elem_of_cons. by left.
Defined.

Local Arguments wrap_int : simpl never.

(** The statements of one call, run without interruption, are the
    call. *)
Lemma process_node_stmts_alone DONE node_id c c' subs b :
  process_node DONE node_id c = Some (c', subs) →
  ∃ sched, interleave DONE node_id node_id sched c (PnCheck, []) b
           = Some (c', (PnReturn, subs), b) ∧
           Forall (λ x, x = true) sched.
Proof.
  intros H.
  destruct (process_node_inv _ _ _ _ _ H)
    as [(Hv & -> & ->)|(v & nd & Hv & Hne & Hn & Hg & Hs & Hsub)].
  - exists [true]. split; [|by repeat constructor].
    simpl. rewrite Hv. simpl. by rewrite is_done_DONE.
  - exists [true; true; true; true]. split; [|by repeat constructor].
    destruct c' as [g' s']. simpl in *. subst g' s'. simpl in Hsub.
    apply Z.eqb_neq in Hne.
    assert (Hd : is_done DONE v = false) by exact Hne.
    repeat (simpl; first [ rewrite Hv | rewrite Hn | rewrite Hsub
                         | rewrite Hd ]).
    done.
Qed.


